(** * RoboPadal Americano: schedule, standings and session commands

    A shallow embedding of [src/App.tsx].  The React component keeps its
    state in hooks; here the hooks become the fields of [AppState] and
    every handler becomes a function from the state before the event to the
    state after it.

    Conventions.
    - A JavaScript [number] that the program stores (ids, rounds, courts,
      scores) is an integer [Z]; the only place where a non-number can show
      up is the score input, whose value is a [number] with [NaN].  Points
      are added in exact integer arithmetic, which is what the code's
      floating-point sums give for integer scores within the scale; the
      theorems about point totals take such scores as a hypothesis.
    - [null] is [None].
    - [Record<number, boolean>] is a [gmap Z bool]; a missing key reads as
      [undefined], which [!] and [!!] treat as [false].
    - [Map<number, row>] is a [gmap Z Totals].
    - The built-ins [String.prototype.trim], [toLowerCase], [localeCompare]
      and the constant [defaultSessionName] (computed from the clock when
      the module loads) are section variables. *)

From Stdlib Require OrderedTypeEx.
From stdpp Require Import gmap strings list fin_maps pretty sorting.

Open Scope Z_scope.

(** * Data model (App.tsx, lines 3-33) *)

Record Player := mkPlayer { p_id : Z; p_name : string }.

Record Team := mkTeam { t_id : string; players : Z * Z }.

Record Match := mkMatch {
  m_id : string;
  round : Z;
  court : Z;
  teamA : Team;
  teamB : Team;
  scoreA : option Z
}.

Record Session := mkSession {
  s_name : string;
  s_players : list Player;
  matches : list Match;
  courtSwapByRound : gmap Z bool
}.

Record StandingsRow := mkRow {
  player : Player;
  points : Z;
  matchesPlayed : Z
}.

(** The type [24 | 32] of the scoring scale. *)
Inductive TotalPoints := TP24 | TP32.

Definition tp_val (tp : TotalPoints) : Z :=
  match tp with TP24 => 24 | TP32 => 32 end.

Inductive Tab := TabMatches | TabStandings.

#[global] Instance Team_inhabited : Inhabited Team :=
  populate (mkTeam "" (0, 0)).

#[global] Instance Player_eq_dec : EqDecision Player.
Proof. solve_decision. Defined.
#[global] Instance Team_eq_dec : EqDecision Team.
Proof. solve_decision. Defined.
#[global] Instance Match_eq_dec : EqDecision Match.
Proof. solve_decision. Defined.

(** * Schedule generator (App.tsx, lines 48-87) *)

Definition pairingsByRound : list (list (Z * Z)) :=
  [ [(0, 7); (1, 6); (2, 5); (3, 4)];
    [(0, 6); (7, 5); (1, 4); (2, 3)];
    [(0, 5); (6, 4); (7, 3); (1, 2)];
    [(0, 4); (5, 3); (6, 2); (7, 1)];
    [(0, 3); (4, 2); (5, 1); (6, 7)];
    [(0, 2); (3, 1); (4, 7); (5, 6)];
    [(0, 1); (2, 7); (3, 6); (4, 5)] ].

(** [roundPairings.map((pair, teamIdx) => ({ id: `r${roundIdx + 1}t${teamIdx + 1}`, ... }))] *)
Definition roundTeams (roundIdx : Z) (roundPairings : list (Z * Z)) : list Team :=
  imap (λ (teamIdx : nat) (pair : Z * Z),
          {| t_id := "r" +:+ pretty (roundIdx + 1) +:+ "t"
                       +:+ pretty (Z.of_nat teamIdx + 1);
             players := (pair.1, pair.2) |})
       roundPairings.

(** The body of the [forEach] callback: the two [push] calls of one round.
    [teams[i]] is a total lookup; every row of the table has four entries
    (lemma [roundTeams_four]), so the default team is never read. *)
Definition pushRound (matches : list Match) (roundIdx : Z)
    (roundPairings : list (Z * Z)) : list Match :=
  let teams := roundTeams roundIdx roundPairings in
  let matches :=
    matches ++ [ {| m_id := "r" +:+ pretty (roundIdx + 1) +:+ "c1";
                    round := roundIdx + 1;
                    court := 1;
                    teamA := teams !!! 0%nat;
                    teamB := teams !!! 1%nat;
                    scoreA := None |} ] in
  matches ++ [ {| m_id := "r" +:+ pretty (roundIdx + 1) +:+ "c2";
                  round := roundIdx + 1;
                  court := 2;
                  teamA := teams !!! 2%nat;
                  teamB := teams !!! 3%nat;
                  scoreA := None |} ].

(** [forEach] hands the callback each element with its index. *)
Definition forEach_indexed {A B} (f : B → Z → A → B) (init : B) (l : list A) : B :=
  foldl (λ acc ix, f acc (Z.of_nat ix.1) ix.2) init (zip (seq 0 (length l)) l).

Definition generateMatches : list Match :=
  forEach_indexed pushRound [] pairingsByRound.

(** ** Vocabulary for the pairing properties *)

Definition team_players (t : Team) : list Z := [(players t).1; (players t).2].

Definition match_teams (m : Match) : list Team := [teamA m; teamB m].

Definition match_players (m : Match) : list Z :=
  team_players (teamA m) ++ team_players (teamB m).

Definition round_matches (r : Z) (ms : list Match) : list Match :=
  filter (λ m, round m = r) ms.

Definition all_teams (ms : list Match) : list Team := ms ≫= match_teams.

(** The team is the unordered pair {a, b}. *)
Definition is_pair (a b : Z) (t : Team) : Prop :=
  players t = (a, b) ∨ players t = (b, a).

#[global] Instance is_pair_dec a b t : Decision (is_pair a b t).
Proof. unfold is_pair. apply _. Defined.

(** * Built-in array and number operations *)

(** The value of the score input after [Number(...)]. *)
Inductive number := Num (z : Z) | NaN.

(** [Math.max(0, Math.min(hi, x))] *)
Definition clamp (hi x : Z) : Z := Z.max 0 (Z.min hi x).

(** [x || y] on numbers: the left operand unless it is [0]. *)
Definition num_or (x y : Z) : Z := if decide (x = 0) then y else x.

(** [Array.prototype.sort(cmp)].  The language fixes the result for a
    consistent comparator: the stable sorted arrangement.  Stable insertion
    sort computes it: an element goes in front of the first later element
    that the comparator does not put before it. *)
Fixpoint sort_insert {A} (cmp : A → A → Z) (x : A) (l : list A) : list A :=
  match l with
  | [] => [x]
  | y :: l' => if decide (0 < cmp x y) then y :: sort_insert cmp x l'
               else x :: y :: l'
  end.

Definition sort {A} (cmp : A → A → Z) (l : list A) : list A :=
  foldr (sort_insert cmp) [] l.

(** [new Set(l).size] *)
Definition set_size (l : list string) : nat :=
  size (list_to_set l : gset string).

(** [!!o[k]], and [!o[k]], for an object whose present values are booleans. *)
Definition truthy (o : gmap Z bool) (k : Z) : bool := default false (o !! k).

(** * Application state (App.tsx, lines 97-103 and the two storage keys) *)

Record AppState := mkState {
  totalPoints : TotalPoints;
  session : option Session;
  sessionNameInput : string;
  playerInputs : list string;
  activeTab : Tab;
  message : string;
  storedSession : option Session;
  storedTotalPoints : option string
}.

Definition set_message (msg : string) (st : AppState) : AppState :=
  mkState (totalPoints st) (session st) (sessionNameInput st) (playerInputs st)
          (activeTab st) msg (storedSession st) (storedTotalPoints st).

Definition set_matches (ms : list Match) (s : Session) : Session :=
  mkSession (s_name s) (s_players s) ms (courtSwapByRound s).

Definition set_scoreA (a : option Z) (m : Match) : Match :=
  mkMatch (m_id m) (round m) (court m) (teamA m) (teamB m) a.

(** [persistSession] (lines 124-127) *)
Definition persistSession (next : Session) (st : AppState) : AppState :=
  mkState (totalPoints st) (Some next) (sessionNameInput st) (playerInputs st)
          (activeTab st) (message st) (Some next) (storedTotalPoints st).

(** [updateTotalPoints] (lines 129-147) *)
Definition reclamp (nextTotalPoints : TotalPoints) (m : Match) : Match :=
  match scoreA m with
  | None => m
  | Some a => set_scoreA (Some (clamp (tp_val nextTotalPoints) a)) m
  end.

Definition updateTotalPoints (nextTotalPoints : TotalPoints) (st : AppState) : AppState :=
  let st := mkState nextTotalPoints (session st) (sessionNameInput st)
                    (playerInputs st) (activeTab st) (message st)
                    (storedSession st)
                    (Some (pretty (tp_val nextTotalPoints))) in
  match session st with
  | None => st
  | Some s =>
      persistSession (set_matches (reclamp nextTotalPoints <$> matches s) s) st
  end.

(** * Standings (lines 149-178) *)

Record Totals := mkTotals { tot_points : Z; tot_matchesPlayed : Z }.

(** [session.players.forEach((player) => totals.set(player.id, {...}))] *)
Definition initTotals (ps : list Player) : gmap Z Totals :=
  foldl (λ totals p, <[p_id p := mkTotals 0 0]> totals) ∅ ps.

(** The callback run for each player id of a team: a player id without a
    row is skipped. *)
Definition credit (score : Z) (totals : gmap Z Totals) (playerId : Z) : gmap Z Totals :=
  match totals !! playerId with
  | None => totals
  | Some row =>
      <[playerId := mkTotals (tot_points row + score) (tot_matchesPlayed row + 1)]> totals
  end.

Definition tallyMatch (totalPoints : Z) (totals : gmap Z Totals) (m : Match) : gmap Z Totals :=
  match scoreA m with
  | None => totals
  | Some a =>
      let b := totalPoints - a in
      let totals := foldl (credit a) totals (team_players (teamA m)) in
      foldl (credit b) totals (team_players (teamB m))
  end.

Definition tally (totalPoints : Z) (s : Session) : gmap Z Totals :=
  foldl (tallyMatch totalPoints) (initTotals (s_players s)) (matches s).

(** [{ player, ...totals.get(player.id)! }]: the row exists for every player
    of the session (lemma [tally_lookup_player]). *)
Definition standingsRow (totals : gmap Z Totals) (p : Player) : StandingsRow :=
  let row := default (mkTotals 0 0) (totals !! p_id p) in
  mkRow p (tot_points row) (tot_matchesPlayed row).

Definition unsortedStandings (totalPoints : Z) (s : Session) : list StandingsRow :=
  standingsRow (tally totalPoints s) <$> s_players s.

Definition sum_points (rows : list StandingsRow) : Z :=
  foldr (λ row acc, points row + acc) 0 rows.

(** The points the table holds for the ids of a list, an id without a row
    counting for nothing. *)
Definition points_of (totals : gmap Z Totals) (playerId : Z) : Z :=
  tot_points (default (mkTotals 0 0) (totals !! playerId)).

Definition roster_points (ids : list Z) (totals : gmap Z Totals) : Z :=
  foldr (λ playerId acc, points_of totals playerId + acc) 0 ids.

(** The table has a row for each of the ids. *)
Definition covers (ids : list Z) (totals : gmap Z Totals) : Prop :=
  Forall (λ playerId, is_Some (totals !! playerId)) ids.

Definition played (ms : list Match) : list Match :=
  filter (λ m, is_Some (scoreA m)) ms.

(** * Display order (lines 180-191) *)

Definition TOTAL_ROUNDS : nat := 7.

Definition byCourt (a b : Match) : Z := court a - court b.

(** One entry of [groupedMatches].  [roundMatches[i]] is [undefined] beyond
    the end of the array, hence the [option]. *)
Definition roundDisplay (s : Session) (idx : nat) : list (option Match) :=
  let round := Z.of_nat idx + 1 in
  let isSwapped := truthy (courtSwapByRound s) round in
  let roundMatches := sort byCourt (round_matches round (matches s)) in
  if isSwapped then [roundMatches !! 1%nat; roundMatches !! 0%nat]
  else Some <$> roundMatches.

Definition groupedMatchesOf (s : Session) : list (list (option Match)) :=
  roundDisplay s <$> seq 0 TOTAL_ROUNDS.

Definition groupedMatches (st : AppState) : list (list (option Match)) :=
  match session st with
  | None => []
  | Some s => groupedMatchesOf s
  end.

(** * Commands that do not use a string built-in *)

(** [toggleCourtSwap] (lines 220-232) *)
Definition toggleCourtSwap (round : Z) (st : AppState) : AppState :=
  match session st with
  | None => st
  | Some s =>
      persistSession
        (mkSession (s_name s) (s_players s) (matches s)
           (<[round := negb (truthy (courtSwapByRound s) round)]> (courtSwapByRound s)))
        st
  end.

(** [updateScore] (lines 239-249).  Its one call site passes a value that
    went through the [Number.isNaN] test, so the parameter is an integer. *)
Definition updateScore (matchId : string) (a : Z) (st : AppState) : AppState :=
  match session st with
  | None => st
  | Some s =>
      let clamped := clamp (tp_val (totalPoints st)) a in
      persistSession
        (set_matches
           ((λ m, if decide (m_id m = matchId) then set_scoreA (Some clamped) m else m)
              <$> matches s) s)
        st
  end.

(** The [onChange] handler of a score input (lines 438-442). *)
Definition onScoreChange (matchId : string) (value : number) (st : AppState) : AppState :=
  match value with
  | NaN => st
  | Num a => updateScore matchId a st
  end.

Definition initialPlayerInputs : list string := replicate 8 "".

(** ** Vocabulary for the session properties *)

(** Every recorded score is a non-negative number. *)
Definition scores_nonneg (s : Session) : Prop :=
  Forall (λ m, ∀ a, scoreA m = Some a → 0 ≤ a) (matches s).

(** Every recorded score lies between 0 and the scoring scale. *)
Definition scores_in_range (st : AppState) : Prop :=
  ∀ s, session st = Some s →
    Forall (λ m, ∀ a, scoreA m = Some a → 0 ≤ a ≤ tp_val (totalPoints st)) (matches s).

(** [s'] has the matches of [s], position by position, with the same id,
    round, court and teams; a match that has a score in [s] has one in
    [s']. *)
Definition played_kept (s s' : Session) : Prop :=
  length (matches s') = length (matches s) ∧
  ∀ (i : nat) (m : Match), matches s !! i = Some m →
    ∃ m' : Match,
      matches s' !! i = Some m' ∧
      m_id m' = m_id m ∧ round m' = round m ∧ court m' = court m ∧
      teamA m' = teamA m ∧ teamB m' = teamB m ∧
      (is_Some (scoreA m) → is_Some (scoreA m')).

Definition all_scored (s : Session) : Prop :=
  Forall (λ m, is_Some (scoreA m)) (matches s).

(** The players' ids are pairwise distinct and every team member of every
    match is one of the players. *)
Definition roster_closed (s : Session) : Prop :=
  NoDup (p_id <$> s_players s) ∧
  Forall (λ m, Forall (λ playerId, playerId ∈ (p_id <$> s_players s))
                      (match_players m))
         (matches s).

Section Builtins.

Variable trim : string → string.
Variable toLowerCase : string → string.
Variable localeCompare : string → string → Z.
Variable defaultSessionName : string.

(** The comparator of line 177. *)
Definition byStanding (a b : StandingsRow) : Z :=
  num_or (points b - points a)
         (localeCompare (p_name (player a)) (p_name (player b))).

Definition standingsOf (totalPoints : Z) (s : Session) : list StandingsRow :=
  sort byStanding (unsortedStandings totalPoints s).

Definition standings (st : AppState) : list StandingsRow :=
  match session st with
  | None => []
  | Some s => standingsOf (tp_val (totalPoints st)) s
  end.

(** Row [a] may stand before row [b]: more points, or the same points and
    a name that [localeCompare] does not put after the other. *)
Definition ranks_before (a b : StandingsRow) : Prop :=
  points b < points a ∨
  (points a = points b ∧
   localeCompare (p_name (player a)) (p_name (player b)) ≤ 0).

(** [names.some((name) => !name)]: the empty string is the falsy one. *)
Definition hasInvalid (names : list string) : bool :=
  existsb (λ name, bool_decide (name = "")) names.

(** [createSession] (lines 193-218) *)
Definition createSession (st : AppState) : AppState :=
  let names := trim <$> playerInputs st in
  if hasInvalid names then
    set_message "Please enter exactly 8 player names." st
  else if decide (set_size (toLowerCase <$> names) ≠ 8%nat) then
    set_message "Player names must be unique." st
  else
    let players := imap (λ id name, mkPlayer (Z.of_nat id) name) names in
    let nextSession :=
      {| s_name := let n := trim (sessionNameInput st) in
                   if decide (n = "") then defaultSessionName else n;
         s_players := players;
         matches := generateMatches;
         courtSwapByRound := ∅ |} in
    set_message "" (persistSession nextSession st).

(** [resetSession] (lines 251-258) *)
Definition resetSession (st : AppState) : AppState :=
  mkState (totalPoints st) None defaultSessionName initialPlayerInputs
          TabMatches "Session reset." None (storedTotalPoints st).

(** The two [onChange] handlers of the creation form (lines 340 and
    351-355).  [idx] is the position of a rendered name input, below the
    length of [playerInputs]. *)
Definition setSessionNameInput (value : string) (st : AppState) : AppState :=
  mkState (totalPoints st) (session st) value (playerInputs st)
          (activeTab st) (message st) (storedSession st) (storedTotalPoints st).

Definition setPlayerInput (idx : nat) (value : string) (st : AppState) : AppState :=
  mkState (totalPoints st) (session st) (sessionNameInput st)
          (<[idx := value]> (playerInputs st))
          (activeTab st) (message st) (storedSession st) (storedTotalPoints st).

(** The events of the component that act on the session or on the form. *)
Inductive Command :=
| EditSessionName (value : string)
| EditPlayerName (idx : nat) (value : string)
| CreateSession
| UpdateScore (matchId : string) (value : number)
| ToggleCourtSwap (round : Z)
| SetScoringScale (nextTotalPoints : TotalPoints)
| Reset.

Definition step (c : Command) (st : AppState) : AppState :=
  match c with
  | EditSessionName value => setSessionNameInput value st
  | EditPlayerName idx value => setPlayerInput idx value st
  | CreateSession => createSession st
  | UpdateScore matchId value => onScoreChange matchId value st
  | ToggleCourtSwap round => toggleCourtSwap round st
  | SetScoringScale tp => updateTotalPoints tp st
  | Reset => resetSession st
  end.

Definition run (cs : list Command) (st : AppState) : AppState :=
  foldl (λ st c, step c st) st cs.

(** [createSession] stops at one of its two validation messages. *)
Definition rejected (inputs : list string) : Prop :=
  let names := trim <$> inputs in
  hasInvalid names = true ∨ set_size (toLowerCase <$> names) ≠ 8%nat.

(** The commands of a session's lifetime: anything but [Reset] and a
    [CreateSession] that passes validation. *)
Definition within_session (inputs : list string) (c : Command) : Prop :=
  match c with
  | Reset => False
  | CreateSession => rejected inputs
  | _ => True
  end.

(** Every command of the run, issued in the state it meets, is a command
    of the session's lifetime. *)
Fixpoint stays_within (cs : list Command) (st : AppState) : Prop :=
  match cs with
  | [] => True
  | c :: cs' => within_session (playerInputs st) c ∧ stays_within cs' (step c st)
  end.

(** What holds of every state the component reaches: the form has eight
    name inputs, recorded scores are within the scale, and a session has
    14 matches between its own eight players. *)
Definition state_ok (st : AppState) : Prop :=
  length (playerInputs st) = 8%nat ∧
  scores_in_range st ∧
  ∀ s, session st = Some s →
    roster_closed s ∧ length (s_players s) = 8%nat ∧ length (matches s) = 14%nat.

(** The state right after the component mounts with empty storage. *)
Definition initialState : AppState :=
  mkState TP32 None defaultSessionName initialPlayerInputs TabMatches "" None None.

End Builtins.

(** * An ASCII instance of the string built-ins

    Used to run the model: [trim] strips ASCII white space, [toLowerCase]
    maps A-Z to a-z and [localeCompare] compares code units. *)

Definition is_space (c : Ascii.ascii) : bool :=
  let n := Ascii.nat_of_ascii c in
  bool_decide (n = 32%nat) || (bool_decide (9 ≤ n)%nat && bool_decide (n ≤ 13)%nat).

Fixpoint trimStart (s : string) : string :=
  match s with
  | String c s' => if is_space c then trimStart s' else s
  | EmptyString => EmptyString
  end.

Definition ascii_trim (s : string) : string :=
  String.rev (trimStart (String.rev (trimStart s))).

Definition lower_char (c : Ascii.ascii) : Ascii.ascii :=
  let n := Ascii.nat_of_ascii c in
  if bool_decide (65 ≤ n)%nat && bool_decide (n ≤ 90)%nat
  then Ascii.ascii_of_nat (n + 32) else c.

Fixpoint ascii_lower (s : string) : string :=
  match s with
  | String c s' => String (lower_char c) (ascii_lower s')
  | EmptyString => EmptyString
  end.

Definition code_unit_compare (a b : string) : Z :=
  match OrderedTypeEx.String_as_OT.cmp a b with
  | Lt => -1
  | Eq => 0
  | Gt => 1
  end.

(** ** A worked session: "Test", players P1..P8, scale 32 *)

Definition demoInputs : list string :=
  ["P1"; " P2"; "P3 "; "P4"; "P5"; "P6"; "P7"; "P8"].

Definition demoStart : AppState :=
  mkState TP32 None " Test " demoInputs TabMatches "" None None.

Definition demoCreated : AppState :=
  createSession ascii_trim ascii_lower "Americano" demoStart.

Definition demoSession : Session :=
  {| s_name := "Test";
     s_players := [ mkPlayer 0 "P1"; mkPlayer 1 "P2"; mkPlayer 2 "P3";
                    mkPlayer 3 "P4"; mkPlayer 4 "P5"; mkPlayer 5 "P6";
                    mkPlayer 6 "P7"; mkPlayer 7 "P8" ];
     matches := generateMatches;
     courtSwapByRound := ∅ |}.

Definition demoScored30 : AppState :=
  onScoreChange "r1c1" (Num 30) demoCreated.

Definition demoSession30 : Session :=
  set_matches (<[0%nat := set_scoreA (Some 30)
                            (mkMatch "r1c1" 1 1 (mkTeam "r1t1" (0, 7))
                                     (mkTeam "r1t2" (1, 6)) None)]>
                 generateMatches)
              demoSession.

Definition demoScored20 : AppState :=
  onScoreChange "r1c1" (Num 20) demoCreated.

(** Every match of the schedule scored 20 for team A. *)
Definition demoAllScored : AppState :=
  run ascii_trim ascii_lower "Americano"
      ((λ m, UpdateScore (m_id m) (Num 20)) <$> generateMatches) demoCreated.

Definition demoAllScoredSession : Session :=
  set_matches (set_scoreA (Some 20) <$> generateMatches) demoSession.

(** * The default session name (lines 38-46) *)

Fixpoint zeros (n : nat) : string :=
  match n with
  | O => ""
  | S n' => "0" +:+ zeros n'
  end.

(** [s.padStart(targetLength, '0')]: nothing is added to a string that is
    already long enough. *)
Definition padStart (targetLength : nat) (s : string) : string :=
  zeros (targetLength - String.length s) +:+ s.

(** [dateLabel], as a function of what [getDate()], [getMonth()] and
    [getFullYear()] return for the current time. *)
Definition dateLabel (date month fullYear : Z) : string :=
  let dd := padStart 2 (pretty date) in
  let mm := padStart 2 (pretty (month + 1)) in
  let yyyy := fullYear in
  dd +:+ "." +:+ mm +:+ "." +:+ pretty yyyy.

Definition defaultSessionNameAt (date month fullYear : Z) : string :=
  "Americano " +:+ dateLabel date month fullYear.

(** * Loading from storage (lines 92-95 and 105-122) *)

(** What [JSON.parse] gives for an object, as far as the effect reads it: a
    property that is missing reads as [undefined], here [None].  The model
    covers items whose [players] and [matches], when present, are arrays of
    players and of matches, as in every item the component writes.  Line 116
    reads [.length] only, so the code also takes other values of length 8
    and 14; those are outside the model. *)
Record Parsed := mkParsed {
  parsed_name : string;
  parsed_players : option (list Player);
  parsed_matches : option (list Match);
  parsed_courtSwapByRound : option (gmap Z bool)
}.

(** The item under [STORAGE_KEY]. *)
Inductive StoredItem :=
| ItemAbsent                    (* [getItem] gives [null] or the empty string *)
| ItemInvalid                   (* [JSON.parse] throws *)
| ItemNotObject                 (* it parses to [null] or to a primitive *)
| ItemObject (parsed : Parsed).

(** [normalizeSession] on an object that has its two arrays. *)
Definition normalizeSession (parsed : Parsed) (ps : list Player) (ms : list Match) : Session :=
  {| s_name := parsed_name parsed;
     s_players := ps;
     matches := ms;
     courtSwapByRound := default ∅ (parsed_courtSwapByRound parsed) |}.

(** The session the mount effect sets, if any. *)
Definition loadSession (item : StoredItem) : option Session :=
  match item with
  | ItemObject parsed =>
      match parsed_players parsed, parsed_matches parsed with
      | Some ps, Some ms =>
          if decide (length ps = 8%nat ∧ length ms = 14%nat)
          then Some (normalizeSession parsed ps ms)
          else None
      | _, _ => None
      end
  | _ => None
  end.

(** The item after the effect: the [catch] removes what does not parse. *)
Definition itemAfterMount (item : StoredItem) : StoredItem :=
  match item with
  | ItemInvalid => ItemAbsent
  | _ => item
  end.

(** The scale after the effect: [useState(32)] unless the stored string is
    ['24'] or ['32']. *)
Definition loadTotalPoints (stored : option string) : TotalPoints :=
  match stored with
  | Some str =>
      if decide (str = "24") then TP24
      else if decide (str = "32") then TP32
      else TP32
  | None => TP32
  end.

(** What [JSON.parse] gives back for the [JSON.stringify] of a session. *)
Definition itemOfSession (s : Session) : StoredItem :=
  ItemObject (mkParsed (s_name s) (Some (s_players s)) (Some (matches s))
                       (Some (courtSwapByRound s))).

Definition storedItem (st : AppState) : StoredItem :=
  from_option itemOfSession ItemAbsent (storedSession st).

(** * Player names and the text summary (lines 234-237 and 260-284) *)

(** [session.players[playerId]?.name ?? '']: an index that is negative or
    beyond the array reads as [undefined]. *)
Definition getPlayerName (playerId : Z) (st : AppState) : string :=
  match session st with
  | None => ""
  | Some s =>
      if decide (0 ≤ playerId)
      then from_option p_name "" (s_players s !! Z.to_nat playerId)
      else ""
  end.

Definition newline : string := String (Ascii.ascii_of_nat 10) "".

Definition standingLine (idx : nat) (row : StandingsRow) : string :=
  pretty (Z.of_nat idx + 1) +:+ ". " +:+ p_name (player row) +:+ " - "
    +:+ pretty (points row) +:+ " pts (" +:+ pretty (matchesPlayed row)
    +:+ " matches)".

Definition teamName (st : AppState) (t : Team) : string :=
  getPlayerName (players t).1 st +:+ " / " +:+ getPlayerName (players t).2 st.

Definition scoreText (st : AppState) (m : Match) : string :=
  match scoreA m with
  | None => "No score"
  | Some a => pretty a +:+ "-" +:+ pretty (tp_val (totalPoints st) - a)
  end.

Definition matchLine (st : AppState) (matchIdx : nat) (m : Match) : string :=
  "  Court " +:+ pretty (Z.of_nat matchIdx + 1) +:+ ": "
    +:+ teamName st (teamA m) +:+ " vs " +:+ teamName st (teamB m)
    +:+ " (" +:+ scoreText st m +:+ ")".

(** The lines pushed for one round.  Reading [match.teamA] of an
    [undefined] entry throws; [None] stands for the exception. *)
Definition roundLines (st : AppState) (idx : nat)
    (roundMatches : list (option Match)) : option (list string) :=
  ls ← mapM id (imap (λ matchIdx entry, matchLine st matchIdx <$> entry) roundMatches);
  Some (("Round " +:+ pretty (Z.of_nat idx + 1)) :: ls).

(** ** Vocabulary for the further properties *)

(** The session's matches are the generated schedule with scores filled
    in. *)
Definition schedule_kept (s : Session) : Prop :=
  set_scoreA None <$> matches s = generateMatches.

(** The players' ids are their positions 0..7. *)
Definition ids_by_position (s : Session) : Prop :=
  p_id <$> s_players s = Z.of_nat <$> seq 0 8.

(** What is in storage is the state's session and scale. *)
Definition storage_synced (st : AppState) : Prop :=
  storedSession st = session st ∧
  loadTotalPoints (storedTotalPoints st) = totalPoints st.

(** How often [playerId] is listed in the team. *)
Definition count_in (playerId : Z) (t : Team) : Z :=
  Z.of_nat (length (filter (λ p, p = playerId) (team_players t))).

(** What one match gives to [playerId]: points, and matches played. *)
Definition points_from (totalPoints playerId : Z) (m : Match) : Z :=
  match scoreA m with
  | None => 0
  | Some a => a * count_in playerId (teamA m)
              + (totalPoints - a) * count_in playerId (teamB m)
  end.

Definition plays_from (playerId : Z) (m : Match) : Z :=
  match scoreA m with
  | None => 0
  | Some _ => count_in playerId (teamA m) + count_in playerId (teamB m)
  end.

Definition sumZ (l : list Z) : Z := foldr Z.add 0 l.

Section Component.

Variable trim : string → string.
Variable toLowerCase : string → string.
Variable localeCompare : string → string → Z.
Variable defaultSessionName : string.

(** [buildSummary] (lines 260-284) before the final [join]. *)
Definition summaryLines (st : AppState) (s : Session) : option (list string) :=
  rounds ← mapM id (imap (roundLines st) (groupedMatchesOf s));
  Some ([s_name s; ""; "Standings:"]
          ++ imap standingLine (standings localeCompare st)
          ++ [""; "Matches:"]
          ++ concat rounds).

Definition buildSummary (st : AppState) : option string :=
  match session st with
  | None => Some ""
  | Some s => String.concat newline <$> summaryLines st s
  end.

(** The component mounted again on the storage the state has written: a
    page reload. *)
Definition reload (st : AppState) : AppState :=
  mkState (loadTotalPoints (storedTotalPoints st))
          (loadSession (storedItem st))
          defaultSessionName initialPlayerInputs TabMatches ""
          (storedSession st) (storedTotalPoints st).

Inductive Event :=
| Do (c : Command)
| Reload.

Definition step_event (e : Event) (st : AppState) : AppState :=
  match e with
  | Do c => step trim toLowerCase defaultSessionName c st
  | Reload => reload st
  end.

Definition run_events (es : list Event) (st : AppState) : AppState :=
  foldl (λ st e, step_event e st) st es.

(** The names of the session are non-empty and distinct up to case. *)
Definition names_valid (s : Session) : Prop :=
  let names := p_name <$> s_players s in
  ¬ ("" ∈ names) ∧ NoDup (toLowerCase <$> names).

(** What every state reached from a first visit satisfies. *)
Definition app_ok (st : AppState) : Prop :=
  state_ok st ∧
  storage_synced st ∧
  ∀ s, session st = Some s →
    schedule_kept s ∧ ids_by_position s ∧ names_valid s.

End Component.

(** ** A worked visit: fill the form, create, score, swap, rescale, reload *)

Definition demoEvents : list Event :=
  [Do (EditSessionName "Cup")]
    ++ imap (λ i name, Do (EditPlayerName i name)) demoInputs
    ++ [Do CreateSession; Do (UpdateScore "r1c1" (Num 30));
        Do (ToggleCourtSwap 1); Do (SetScoringScale TP24); Reload].

Definition demoReached : AppState :=
  run_events ascii_trim ascii_lower "Americano" demoEvents
             (initialState "Americano").

Definition demoReachedSession : Session :=
  {| s_name := "Cup";
     s_players := s_players demoSession;
     matches := <[0%nat := mkMatch "r1c1" 1 1 (mkTeam "r1t1" (0, 7))
                                   (mkTeam "r1t2" (1, 6)) (Some 24)]>
                  generateMatches;
     courtSwapByRound := {[1 := true]} |}.

(** Case analysis on a finite disjunction of equations. *)
Ltac each_case H := repeat (destruct H as [-> | H]); [.. | subst].

(** * Theorems about the schedule *)

Lemma roundTeams_four (roundIdx : Z) :
  Forall (λ row, length (roundTeams roundIdx row) = 4%nat) pairingsByRound.
Proof. repeat constructor. Qed.

Lemma round_cases (r : Z) :
  1 ≤ r ≤ 7 → r = 1 ∨ r = 2 ∨ r = 3 ∨ r = 4 ∨ r = 5 ∨ r = 6 ∨ r = 7.
Proof. lia. Qed.

Lemma id_cases (p : Z) :
  0 ≤ p ≤ 7 → p = 0 ∨ p = 1 ∨ p = 2 ∨ p = 3 ∨ p = 4 ∨ p = 5 ∨ p = 6 ∨ p = 7.
Proof. lia. Qed.

(** C1.  [generateMatches] takes no input and returns 14 matches.  For every
    round [r] in 1..7 the matches of that round are exactly two, in this
    order: the court-1 match, team 1 against team 2 of row [r] of the pairing
    table, and the court-2 match, team 3 against team 4 of that row; both
    have no score yet.  They sit at positions [2(r-1)] and [2(r-1)+1] of the
    result. *)
Theorem generateMatches_schedule :
  length generateMatches = 14%nat ∧
  ∀ r : Z, 1 ≤ r ≤ 7 →
    ∃ pr0 pr1 pr2 pr3 : Z * Z,
      pairingsByRound !! Z.to_nat (r - 1) = Some [pr0; pr1; pr2; pr3] ∧
      let team (k : Z) (pr : Z * Z) :=
        {| t_id := "r" +:+ pretty r +:+ "t" +:+ pretty k; players := pr |} in
      let m1 := {| m_id := "r" +:+ pretty r +:+ "c1"; round := r; court := 1;
                   teamA := team 1 pr0; teamB := team 2 pr1; scoreA := None |} in
      let m2 := {| m_id := "r" +:+ pretty r +:+ "c2"; round := r; court := 2;
                   teamA := team 3 pr2; teamB := team 4 pr3; scoreA := None |} in
      round_matches r generateMatches = [m1; m2] ∧
      generateMatches !! Z.to_nat (2 * (r - 1)) = Some m1 ∧
      generateMatches !! Z.to_nat (2 * (r - 1) + 1) = Some m2 ∧
      court <$> round_matches r generateMatches = [1; 2].
Proof.
  split; [reflexivity |].
  intros r Hr. apply round_cases in Hr.
  each_case Hr; do 4 eexists; (split; [reflexivity |]); vm_compute; done.
Qed.

Lemma generateMatches_schedule_witness :
  1 ≤ 3 ≤ 7 ∧
  round_matches 3 generateMatches =
    [ mkMatch "r3c1" 3 1 (mkTeam "r3t1" (0, 5)) (mkTeam "r3t2" (6, 4)) None;
      mkMatch "r3c2" 3 2 (mkTeam "r3t3" (7, 3)) (mkTeam "r3t4" (1, 2)) None ].
Proof.
  split; [lia |].
  destruct generateMatches_schedule as [_ H].
  destruct (H 3 ltac:(lia)) as (pr0 & pr1 & pr2 & pr3 & Hrow & Hm & _).
  injection Hrow as <- <- <- <-. exact Hm.
Defined.

(** C2.  In the generated schedule every participant id in 0..7 is in exactly
    one team of every round and so in exactly 7 of the 14 matches; the 28
    teams are pairs of distinct ids in 0..7, and every unordered pair of
    distinct ids is the player pair of exactly one team. *)
Theorem generateMatches_partnerships :
  (∀ p r : Z, 0 ≤ p ≤ 7 → 1 ≤ r ≤ 7 →
     length (filter (λ t, p ∈ team_players t)
                    (all_teams (round_matches r generateMatches))) = 1%nat) ∧
  (∀ p : Z, 0 ≤ p ≤ 7 →
     length (filter (λ m, p ∈ match_players m) generateMatches) = 7%nat) ∧
  length (all_teams generateMatches) = 28%nat ∧
  Forall (λ t, 0 ≤ (players t).1 ≤ 7 ∧ 0 ≤ (players t).2 ≤ 7
               ∧ (players t).1 ≠ (players t).2)
         (all_teams generateMatches) ∧
  (∀ a b : Z, 0 ≤ a ≤ 7 → 0 ≤ b ≤ 7 → a ≠ b →
     length (filter (is_pair a b) (all_teams generateMatches)) = 1%nat).
Proof.
  split_and!.
  - intros p r Hp Hr. apply id_cases in Hp. apply round_cases in Hr.
    each_case Hp; each_case Hr; vm_compute; reflexivity.
  - intros p Hp. apply id_cases in Hp.
    each_case Hp; vm_compute; reflexivity.
  - reflexivity.
  - apply (bool_decide_unpack _). vm_compute. exact I.
  - intros a b Ha Hb Hab. apply id_cases in Ha. apply id_cases in Hb.
    each_case Ha; each_case Hb; try (exfalso; apply Hab; reflexivity);
      vm_compute; reflexivity.
Qed.

Lemma generateMatches_partnerships_witness :
  length (filter (λ t, 5 ∈ team_players t)
                 (all_teams (round_matches 4 generateMatches))) = 1%nat ∧
  length (filter (λ m, 5 ∈ match_players m) generateMatches) = 7%nat ∧
  length (filter (is_pair 2 6) (all_teams generateMatches)) = 1%nat.
Proof.
  destruct generateMatches_partnerships as (H1 & H2 & _ & _ & H3).
  split_and!; [apply H1 | apply H2 | apply H3]; lia.
Defined.

(** * The worked session *)

Lemma demoCreated_session : session demoCreated = Some demoSession.
Proof. vm_compute. reflexivity. Qed.

(** * Score entry *)

Lemma clamp_range (hi x : Z) : 0 ≤ hi → 0 ≤ clamp hi x ≤ hi.
Proof. unfold clamp. lia. Qed.

Lemma clamp_cases (hi x : Z) :
  0 ≤ hi →
  (x < 0 → clamp hi x = 0) ∧ (0 ≤ x ≤ hi → clamp hi x = x) ∧ (hi < x → clamp hi x = hi).
Proof. unfold clamp. lia. Qed.

Lemma clamp_min (hi x : Z) : 0 ≤ hi → 0 ≤ x → clamp hi x = Z.min x hi.
Proof. unfold clamp. lia. Qed.

Lemma tp_val_pos (tp : TotalPoints) : 0 < tp_val tp.
Proof. destruct tp; reflexivity. Qed.

Lemma set_scoreA_same (m : Match) : set_scoreA (scoreA m) m = m.
Proof. destruct m; reflexivity. Qed.

Lemma set_matches_same (s : Session) : set_matches (matches s) s = s.
Proof. destruct s; reflexivity. Qed.

Lemma fmap_unchanged {A} (f : A → A) (l : list A) :
  (∀ x, x ∈ l → f x = x) → f <$> l = l.
Proof.
  induction l as [| x l IH]; intros H; csimpl; [done |].
  rewrite H by left. f_equal. apply IH. intros y Hy. apply H. by right.
Qed.

(** C4.  In a state with a session, a numeric value entered for [matchId]
    stores the value clamped into [0, totalPoints] in every match whose id
    is [matchId] and keeps each other match, the order of the matches, and
    the session's name, players and court swaps; the scoring scale stays.
    When no match has that id the session is the same as before, and a value
    that is not a number leaves the whole state as it was. *)
Theorem updateScore_clamps_one_match
    (st : AppState) (s : Session) (matchId : string) (v : Z) :
  session st = Some s →
  let hi := tp_val (totalPoints st) in
  let st' := onScoreChange matchId (Num v) st in
  (∃ a : Z,
     0 ≤ a ≤ hi ∧
     (v < 0 → a = 0) ∧ (0 ≤ v ≤ hi → a = v) ∧ (hi < v → a = hi) ∧
     ∃ s' : Session,
       session st' = Some s' ∧
       s_name s' = s_name s ∧
       s_players s' = s_players s ∧
       courtSwapByRound s' = courtSwapByRound s ∧
       length (matches s') = length (matches s) ∧
       (∀ (i : nat) (m : Match), matches s !! i = Some m →
          matches s' !! i =
            Some (if decide (m_id m = matchId) then set_scoreA (Some a) m else m)) ∧
       ((∀ m, m ∈ matches s → m_id m ≠ matchId) → s' = s)) ∧
  totalPoints st' = totalPoints st ∧
  onScoreChange matchId NaN st = st.
Proof.
  intros Hs hi st'. subst hi st'. simpl. unfold updateScore. rewrite Hs.
  pose proof (tp_val_pos (totalPoints st)) as Hpos.
  split_and!; [| done | done].
  exists (clamp (tp_val (totalPoints st)) v).
  destruct (clamp_cases (tp_val (totalPoints st)) v) as (H1 & H2 & H3); [lia |].
  split_and!; [apply clamp_range; lia | apply clamp_range; lia | done..|].
  eexists. split; [reflexivity |]. simpl.
  split_and!; try done.
  - by rewrite length_fmap.
  - intros i m Hm. by rewrite list_lookup_fmap, Hm.
  - intros Hno. rewrite fmap_unchanged; [apply set_matches_same |].
    intros m Hm. by rewrite decide_False by auto.
Qed.

Lemma updateScore_clamps_one_match_witness :
  ∃ s' : Session,
    session (onScoreChange "r1c1" (Num 40) demoCreated) = Some s' ∧
    (scoreA <$> matches s' !! 0%nat) = Some (Some 32) ∧
    matches s' !! 1%nat = matches demoSession !! 1%nat.
Proof.
  destruct (updateScore_clamps_one_match demoCreated demoSession "r1c1" 40
              demoCreated_session)
    as ((a & Ha & _ & _ & Hhi & s' & Hs' & _ & _ & _ & _ & Hm & _) & _).
  exists s'. split; [exact Hs' |].
  rewrite (Hm 0%nat _ eq_refl), (Hm 1%nat _ eq_refl).
  rewrite Hhi by (vm_compute; reflexivity).
  split; reflexivity.
Defined.

(** * Scoring scale *)

(** C5.  [updateTotalPoints] sets the scoring scale to the chosen value, also
    when there is no session.  In a session whose recorded scores are not
    negative it replaces every recorded score [a] by [min a newScale] and
    leaves unscored matches unscored: no score grows, a score that is at most
    the new scale stays.  A score of 30 becomes 24 under scale 24 and is
    still 24 after the scale is set back to 32. *)
Theorem updateTotalPoints_reclamps
    (st : AppState) (s : Session) (nextTotalPoints : TotalPoints) :
  session st = Some s →
  scores_nonneg s →
  let st' := updateTotalPoints nextTotalPoints st in
  totalPoints st' = nextTotalPoints ∧
  (∀ st0, totalPoints (updateTotalPoints nextTotalPoints st0) = nextTotalPoints) ∧
  (∃ s' : Session,
     session st' = Some s' ∧
     s_name s' = s_name s ∧
     s_players s' = s_players s ∧
     courtSwapByRound s' = courtSwapByRound s ∧
     length (matches s') = length (matches s) ∧
     ∀ (i : nat) (m : Match), matches s !! i = Some m →
       ∃ m' : Match,
         matches s' !! i = Some m' ∧
         m' = set_scoreA ((λ a, Z.min a (tp_val nextTotalPoints)) <$> scoreA m) m ∧
         (scoreA m = None → m' = m) ∧
         (∀ a, scoreA m = Some a →
            ∃ a', scoreA m' = Some a' ∧ a' ≤ a ∧
                  (a ≤ tp_val nextTotalPoints → m' = m))) ∧
  (∀ (i : nat) (m : Match), matches s !! i = Some m → scoreA m = Some 30 →
     ∃ s1 s2 m1 m2,
       session (updateTotalPoints TP24 st) = Some s1 ∧
       matches s1 !! i = Some m1 ∧ scoreA m1 = Some 24 ∧
       session (updateTotalPoints TP32 (updateTotalPoints TP24 st)) = Some s2 ∧
       matches s2 !! i = Some m2 ∧ scoreA m2 = Some 24).
Proof.
  intros Hs Hnn st'. subst st'.
  split_and!.
  - unfold updateTotalPoints. simpl. by rewrite Hs.
  - intros st0. unfold updateTotalPoints. simpl. by destruct (session st0).
  - unfold updateTotalPoints. simpl. rewrite Hs. simpl.
    eexists. split; [reflexivity |]. simpl.
    split_and!; try done; [by rewrite length_fmap |].
    intros i m Hm. rewrite list_lookup_fmap, Hm. simpl.
    eexists. split; [reflexivity |].
    assert (Hin : m ∈ matches s) by (eapply list_elem_of_lookup_2; eauto).
    unfold reclamp. destruct (scoreA m) as [a |] eqn:Ha; simpl.
    + pose proof (proj1 (Forall_forall _ _) Hnn m Hin a Ha) as Hpos.
      pose proof (tp_val_pos nextTotalPoints) as Htp.
      rewrite clamp_min by lia.
      split_and!; [done | done |].
      intros a0 [= <-]. exists (Z.min a (tp_val nextTotalPoints)).
      split_and!; [done | lia |].
      intros Hle. rewrite Z.min_l by lia. rewrite <- Ha. apply set_scoreA_same.
    + split_and!; [by rewrite <- Ha, set_scoreA_same | done | done].
  - intros i m Hm H30. unfold updateTotalPoints. simpl. rewrite Hs. simpl.
    assert (H24 : reclamp TP24 m = set_scoreA (Some 24) m)
      by (unfold reclamp; rewrite H30; reflexivity).
    eexists _, _, (set_scoreA (Some 24) m), (set_scoreA (Some 24) m).
    split_and!; try reflexivity; simpl.
    + by rewrite list_lookup_fmap, Hm, <- H24.
    + by rewrite !list_lookup_fmap, Hm; simpl; rewrite H24.
Qed.

Lemma demoScored30_session : session demoScored30 = Some demoSession30.
Proof. vm_compute. reflexivity. Qed.

Lemma demoSession30_nonneg : scores_nonneg demoSession30.
Proof.
  unfold scores_nonneg. apply Forall_forall. intros m Hm a Ha.
  vm_compute in Hm.
  repeat (apply elem_of_cons in Hm as [-> | Hm]; [by inversion Ha |]).
  by apply elem_of_nil in Hm.
Qed.

Lemma updateTotalPoints_reclamps_witness :
  ∃ s1 s2 m1 m2,
    session (updateTotalPoints TP24 demoScored30) = Some s1 ∧
    matches s1 !! 0%nat = Some m1 ∧ scoreA m1 = Some 24 ∧
    session (updateTotalPoints TP32 (updateTotalPoints TP24 demoScored30)) = Some s2 ∧
    matches s2 !! 0%nat = Some m2 ∧ scoreA m2 = Some 24.
Proof.
  destruct (updateTotalPoints_reclamps demoScored30 demoSession30 TP24
              demoScored30_session demoSession30_nonneg) as (_ & _ & _ & H30).
  exact (H30 0%nat _ eq_refl eq_refl).
Defined.

(** * Court swap *)

Lemma truthy_insert (o : gmap Z bool) (k k' : Z) (b : bool) :
  truthy (<[k := b]> o) k' = if decide (k = k') then b else truthy o k'.
Proof. unfold truthy. rewrite lookup_insert. by case_decide. Qed.

Lemma roundDisplay_ext (s s' : Session) (idx : nat) :
  matches s' = matches s →
  (∀ k, truthy (courtSwapByRound s') k = truthy (courtSwapByRound s) k) →
  roundDisplay s' idx = roundDisplay s idx.
Proof. intros Hm Ht. unfold roundDisplay. by rewrite Hm, Ht. Qed.

Lemma toggleCourtSwap_some (st : AppState) (s : Session) (r : Z) :
  session st = Some s →
  session (toggleCourtSwap r st) =
    Some (mkSession (s_name s) (s_players s) (matches s)
            (<[r := negb (truthy (courtSwapByRound s) r)]> (courtSwapByRound s))).
Proof. intros Hs. unfold toggleCourtSwap. by rewrite Hs. Qed.

(** C8 as amended.  [toggleCourtSwap] has no test on the round number: for
    every round, inside 1..7 or not, it stores the negation of the round's
    current flag (a missing entry counting as false) under that round and
    keeps every other entry and every other field of the session. *)
Theorem toggleCourtSwap_flips_any_round (st : AppState) (s : Session) (r : Z) :
  session st = Some s →
  ∃ s' : Session,
    session (toggleCourtSwap r st) = Some s' ∧
    courtSwapByRound s' !! r = Some (negb (truthy (courtSwapByRound s) r)) ∧
    truthy (courtSwapByRound s') r = negb (truthy (courtSwapByRound s) r) ∧
    (∀ r', r' ≠ r → courtSwapByRound s' !! r' = courtSwapByRound s !! r') ∧
    s_name s' = s_name s ∧ s_players s' = s_players s ∧ matches s' = matches s.
Proof.
  intros Hs. eexists. split; [by apply toggleCourtSwap_some |]. simpl.
  split_and!; try done.
  - apply lookup_insert_eq.
  - rewrite truthy_insert. by rewrite decide_True.
  - intros r' Hr'. by apply lookup_insert_ne.
Qed.

Lemma toggleCourtSwap_flips_any_round_witness :
  ∃ s' : Session,
    session (toggleCourtSwap 12 demoCreated) = Some s' ∧
    courtSwapByRound s' !! 12 = Some true.
Proof.
  destruct (toggleCourtSwap_flips_any_round demoCreated demoSession 12
              demoCreated_session) as (s' & Hs' & Hr & _).
  exists s'. split; [exact Hs' | exact Hr].
Defined.

(** C8 as stated fails: round 8 is outside 1..7, and toggling it on the
    worked session changes the session (it gains the entry 8 ↦ true). *)
Lemma toggleCourtSwap_out_of_range_not_noop :
  ¬ (1 ≤ 8 ≤ 7) ∧
  session (toggleCourtSwap 8 demoCreated) ≠ session demoCreated ∧
  ∃ s', session (toggleCourtSwap 8 demoCreated) = Some s' ∧
        courtSwapByRound s' !! 8 = Some true ∧
        courtSwapByRound demoSession !! 8 = None.
Proof.
  split; [lia |].
  pose proof (toggleCourtSwap_some demoCreated demoSession 8 demoCreated_session)
    as Hs'.
  split.
  - intros Heq.
    assert (Hl : (s ← session (toggleCourtSwap 8 demoCreated); courtSwapByRound s !! 8)
                 = (s ← session demoCreated; courtSwapByRound s !! 8))
      by (by rewrite Heq).
    rewrite Hs', demoCreated_session in Hl. cbn [mbind option_bind] in Hl.
    cbn [courtSwapByRound demoSession] in Hl.
    by rewrite lookup_insert_eq, lookup_empty in Hl.
  - eexists. split_and!; [exact Hs' | apply lookup_insert_eq | apply lookup_empty].
Qed.

Lemma toggleCourtSwap_twice_truthy (o : gmap Z bool) (r k : Z) :
  truthy (<[r := negb (truthy (<[r := negb (truthy o r)]> o) r)]>
            (<[r := negb (truthy o r)]> o)) k
  = truthy o k.
Proof.
  rewrite !truthy_insert. case_decide; [subst |]; [| done].
  rewrite decide_True by done. by destruct (truthy o k).
Qed.

Lemma sort_insert_length {A} (cmp : A → A → Z) (x : A) (l : list A) :
  length (sort_insert cmp x l) = S (length l).
Proof. induction l as [| y l IH]; simpl; [done |]. case_decide; simpl; lia. Qed.

Lemma sort_length {A} (cmp : A → A → Z) (l : list A) :
  length (sort cmp l) = length l.
Proof.
  induction l as [| x l IH]; simpl; [done |].
  unfold sort in *. simpl. by rewrite sort_insert_length, IH.
Qed.

(** C9.  Toggling the court swap of a round twice gives back the display
    order of every round, for every round number and so for those in 1..7;
    after one toggle and after two the session has the very same list of
    matches (ids, rounds, courts, teams, scores).  One toggle does change
    what is shown: a round with two matches is displayed in the opposite
    order. *)
Theorem toggleCourtSwap_twice_restores_display (st : AppState) (r : Z) :
  groupedMatches (toggleCourtSwap r (toggleCourtSwap r st)) = groupedMatches st ∧
  (∀ s : Session, session st = Some s →
     ∃ s1 s2 : Session,
       session (toggleCourtSwap r st) = Some s1 ∧
       session (toggleCourtSwap r (toggleCourtSwap r st)) = Some s2 ∧
       matches s1 = matches s ∧ matches s2 = matches s ∧
       ∀ idx : nat,
         r = Z.of_nat idx + 1 →
         length (round_matches r (matches s)) = 2%nat →
         roundDisplay s1 idx = reverse (roundDisplay s idx) ∧
         roundDisplay s2 idx = roundDisplay s idx).
Proof.
  split.
  - unfold groupedMatches.
    destruct (session st) as [s |] eqn:Hs.
    + rewrite (toggleCourtSwap_some _ _ r (toggleCourtSwap_some _ _ r Hs)).
      unfold groupedMatchesOf. apply list_fmap_ext. intros _ idx _.
      apply roundDisplay_ext; [done |]. intros k. simpl.
      apply toggleCourtSwap_twice_truthy.
    + unfold toggleCourtSwap. by rewrite !Hs.
  - intros s Hs.
    pose proof (toggleCourtSwap_some _ _ r Hs) as H1.
    pose proof (toggleCourtSwap_some _ _ r H1) as H2.
    eexists _, _. split_and!; [exact H1 | exact H2 | done | done |].
    intros idx -> Hlen. split.
    + unfold roundDisplay. simpl. rewrite truthy_insert, decide_True by done.
      set (rm := sort byCourt _).
      assert (Hrm : length rm = 2%nat) by (subst rm; by rewrite sort_length).
      clearbody rm. clear H1 H2.
      destruct rm as [| x [| y [| z rm]]]; try discriminate Hrm.
      by destruct (truthy (courtSwapByRound s) _).
    + apply roundDisplay_ext; [done |]. intros k. simpl.
      apply toggleCourtSwap_twice_truthy.
Qed.

Lemma toggleCourtSwap_twice_restores_display_witness :
  ∃ s1 s2 : Session,
    session (toggleCourtSwap 3 demoCreated) = Some s1 ∧
    session (toggleCourtSwap 3 (toggleCourtSwap 3 demoCreated)) = Some s2 ∧
    roundDisplay s1 2 = reverse (roundDisplay demoSession 2) ∧
    roundDisplay s2 2 = roundDisplay demoSession 2.
Proof.
  destruct (toggleCourtSwap_twice_restores_display demoCreated 3) as [_ H].
  destruct (H demoSession demoCreated_session) as (s1 & s2 & H1 & H2 & _ & _ & Hd).
  exists s1, s2. split_and!; [exact H1 | exact H2 | |];
    apply (Hd 2%nat); reflexivity.
Defined.

(** * Session creation *)

Lemma set_size_le (l : list string) : (set_size l ≤ length l)%nat.
Proof.
  unfold set_size. induction l as [| x l IH]; simpl.
  - done.
  - etrans; [apply Nat.eq_le_incl, size_union_alt |].
    rewrite size_singleton.
    assert (Hsub : list_to_set l ∖ {[x]} ⊆ (list_to_set l : gset string))
      by (by apply subseteq_difference_l).
    apply subseteq_size in Hsub. lia.
Qed.

Lemma set_size_NoDup (l : list string) : set_size l = length l ↔ NoDup l.
Proof.
  split; [| apply size_list_to_set].
  induction l as [| x l IH]; intros Hsz; [constructor |].
  pose proof (set_size_le l) as Hle.
  unfold set_size in *. simpl in Hsz.
  destruct (decide (x ∈ l)) as [Hin | Hnin].
  - exfalso.
    assert (Heq : {[x]} ∪ list_to_set l = (list_to_set l : gset string))
      by (by apply subseteq_union_1_L, singleton_subseteq_l, elem_of_list_to_set).
    rewrite Heq in Hsz. lia.
  - constructor; [done |]. apply IH.
    rewrite size_union in Hsz
      by (by apply disjoint_singleton_l; rewrite elem_of_list_to_set).
    rewrite size_singleton in Hsz. lia.
Qed.

Lemma hasInvalid_true (names : list string) :
  hasInvalid names = true ↔ "" ∈ names.
Proof.
  unfold hasInvalid. rewrite existsb_exists. split.
  - intros (n & Hn & He). apply bool_decide_eq_true in He. subst.
    by apply list_elem_of_In.
  - intros H. exists "". split; [by apply list_elem_of_In | by apply bool_decide_eq_true].
Qed.

Section Creation.

Variable trim : string → string.
Variable toLowerCase : string → string.
Variable defaultSessionName : string.

Local Abbreviation create_session :=
  (createSession trim toLowerCase defaultSessionName).

Lemma createSession_rejected (st : AppState) :
  rejected trim toLowerCase (playerInputs st) →
  ∃ msg, create_session st = set_message msg st.
Proof.
  unfold rejected, createSession. simpl. intros [H | H].
  - rewrite H. eauto.
  - destruct (hasInvalid _); [eauto |]. rewrite decide_True by done. eauto.
Qed.

Lemma createSession_playerInputs (st : AppState) :
  playerInputs (create_session st) = playerInputs st.
Proof.
  unfold createSession.
  destruct (hasInvalid _); [done |]. by case_decide.
Qed.

(** C6.  With the eight name inputs trimmed: if a trimmed name is empty,
    or if no name is empty but two names are equal after lower-casing,
    [createSession] only sets the matching validation message and the
    session, like every other part of the state, stays as it was.
    Otherwise the new session has player [i] named by the [i]-th trimmed
    input with id [i], the generated schedule, no court swaps, and the
    trimmed session-name input as its name, or the default name when the
    trimmed input is empty; the message is cleared. *)
Theorem createSession_validates (st : AppState) :
  length (playerInputs st) = 8%nat →
  let names := trim <$> playerInputs st in
  ("" ∈ names →
     create_session st = set_message "Please enter exactly 8 player names." st ∧
     session (create_session st) = session st) ∧
  ("" ∉ names → ¬ NoDup (toLowerCase <$> names) →
     create_session st = set_message "Player names must be unique." st ∧
     session (create_session st) = session st) ∧
  ("" ∉ names → NoDup (toLowerCase <$> names) →
     ∃ s : Session,
       session (create_session st) = Some s ∧
       message (create_session st) = "" ∧
       s_name s = (if decide (trim (sessionNameInput st) = "")
                   then defaultSessionName
                   else trim (sessionNameInput st)) ∧
       length (s_players s) = 8%nat ∧
       (∀ (i : nat) (raw : string), playerInputs st !! i = Some raw →
          s_players s !! i = Some (mkPlayer (Z.of_nat i) (trim raw))) ∧
       matches s = generateMatches ∧
       courtSwapByRound s = ∅).
Proof.
  intros Hlen names.
  assert (Hlen' : length (toLowerCase <$> names) = 8%nat)
    by (subst names; by rewrite !length_fmap).
  unfold createSession. fold names.
  split_and!.
  - intros Hin. apply hasInvalid_true in Hin. by rewrite Hin.
  - intros Hnin Hdup.
    destruct (hasInvalid names) eqn:Hinv; [by apply hasInvalid_true in Hinv |].
    rewrite decide_True; [done |].
    intros Hsz. apply Hdup, set_size_NoDup. by rewrite Hsz.
  - intros Hnin Hnd.
    destruct (hasInvalid names) eqn:Hinv; [by apply hasInvalid_true in Hinv |].
    rewrite decide_False
      by (intros Hsz; apply Hsz; apply set_size_NoDup in Hnd; by rewrite Hnd).
    eexists. split; [reflexivity |]. simpl.
    split_and!; try done.
    + subst names. by rewrite length_imap, length_fmap.
    + intros i raw Hraw. subst names.
      by rewrite list_lookup_imap, list_lookup_fmap, Hraw.
Qed.

End Creation.

Lemma createSession_validates_witness :
  ∃ s : Session,
    session (createSession ascii_trim ascii_lower "Americano" demoStart) = Some s ∧
    s_name s = "Test" ∧
    s_players s !! 1%nat = Some (mkPlayer 1 "P2") ∧
    matches s = generateMatches.
Proof.
  destruct (createSession_validates ascii_trim ascii_lower "Americano" demoStart
              eq_refl) as (_ & _ & Hok).
  destruct Hok as (s & Hs & _ & Hn & _ & Hp & Hm & _).
  - apply (bool_decide_unpack _). vm_compute. exact I.
  - apply (bool_decide_unpack _). vm_compute. exact I.
  - exists s. split_and!; [exact Hs | exact Hn | exact (Hp 1%nat _ eq_refl) | exact Hm].
Defined.

(** * A session's lifetime *)

Lemma played_kept_refl (s : Session) : played_kept s s.
Proof. split; [done |]. intros i m Hm. exists m. by rewrite Hm. Qed.

Lemma played_kept_trans (s1 s2 s3 : Session) :
  played_kept s1 s2 → played_kept s2 s3 → played_kept s1 s3.
Proof.
  intros [Hl1 H1] [Hl2 H2]. split; [congruence |].
  intros i m Hm.
  destruct (H1 i m Hm) as (m' & Hm' & ? & ? & ? & ? & ? & Hsc).
  destruct (H2 i m' Hm') as (m'' & Hm'' & ? & ? & ? & ? & ? & Hsc').
  exists m''. split_and!; try congruence. auto.
Qed.

Lemma played_kept_same_matches (s s' : Session) :
  matches s' = matches s → played_kept s s'.
Proof.
  intros Heq. split; [by rewrite Heq |].
  intros i m Hm. exists m. by rewrite Heq, Hm.
Qed.

(** Mapping a function that only rewrites a recorded score to a recorded
    score keeps the played matches. *)
Lemma played_kept_fmap (f : Match → Match) (s : Session) :
  (∀ m, m_id (f m) = m_id m ∧ round (f m) = round m ∧ court (f m) = court m
        ∧ teamA (f m) = teamA m ∧ teamB (f m) = teamB m
        ∧ (is_Some (scoreA m) → is_Some (scoreA (f m)))) →
  played_kept s (set_matches (f <$> matches s) s).
Proof.
  intros Hf. split; simpl; [by rewrite length_fmap |].
  intros i m Hm. exists (f m). rewrite list_lookup_fmap, Hm.
  split; [done |]. apply Hf.
Qed.

Lemma reclamp_keeps (tp : TotalPoints) (m : Match) :
  m_id (reclamp tp m) = m_id m ∧ round (reclamp tp m) = round m
  ∧ court (reclamp tp m) = court m
  ∧ teamA (reclamp tp m) = teamA m ∧ teamB (reclamp tp m) = teamB m
  ∧ (is_Some (scoreA m) → is_Some (scoreA (reclamp tp m))).
Proof.
  unfold reclamp. destruct (scoreA m) eqn:E; simpl; split_and!; done.
Qed.

Lemma generateMatches_unplayed :
  Forall (λ m, scoreA m = None) generateMatches.
Proof. apply (bool_decide_unpack _). vm_compute. exact I. Qed.

Section Lifetime.

Variable trim : string → string.
Variable toLowerCase : string → string.
Variable defaultSessionName : string.

Local Abbreviation do_step := (step trim toLowerCase defaultSessionName).
Local Abbreviation do_run := (run trim toLowerCase defaultSessionName).
Local Abbreviation in_lifetime := (within_session trim toLowerCase).
Local Abbreviation lifetime := (stays_within trim toLowerCase defaultSessionName).

Lemma step_played_kept (c : Command) (st : AppState) (s : Session) :
  session st = Some s →
  in_lifetime (playerInputs st) c →
  ∃ s' : Session,
    session (do_step c st) = Some s' ∧ played_kept s s' ∧
    match c with
    | ToggleCourtSwap _ | CreateSession | EditSessionName _ | EditPlayerName _ _ =>
        matches s' = matches s
    | _ => True
    end.
Proof.
  intros Hs Hc.
  destruct c as [nm | idx nm | | matchId [v |] | r | tp |]; simpl in *; try done.
  - exists s. split_and!; [done | apply played_kept_refl | done].
  - exists s. split_and!; [done | apply played_kept_refl | done].
  - destruct (createSession_rejected _ _ defaultSessionName st Hc) as [msg ->].
    exists s. simpl. split_and!; [done | apply played_kept_refl | done].
  - unfold updateScore. rewrite Hs. simpl.
    eexists. split_and!; [reflexivity | | done].
    apply played_kept_fmap. intros m.
    case_decide; simpl; split_and!; eauto.
  - exists s. split_and!; [done | apply played_kept_refl | done].
  - rewrite (toggleCourtSwap_some _ _ r Hs).
    eexists. split_and!; [reflexivity | by apply played_kept_same_matches | done].
  - unfold updateTotalPoints. simpl. rewrite Hs. simpl.
    eexists. split_and!; [reflexivity | | done].
    apply played_kept_fmap, reclamp_keeps.
Qed.

(** C10.  During a session's lifetime, that is under any command other
    than [Reset] and a [CreateSession] that passes validation, a match that
    has a score keeps having one: after a score entry (a number or not), a
    scale change, a court swap, a rejected [CreateSession] or an edit of
    the form the session still exists and has the same matches position by
    position, each with its id, round, court and teams, and with a score
    wherever there was one; all of these but the score entry and the scale
    change keep the list of matches as it is.  The same holds after any
    sequence of such commands. *)
Theorem played_matches_never_shrink (st : AppState) (s : Session) :
  session st = Some s →
  (∀ c : Command, in_lifetime (playerInputs st) c →
     ∃ s' : Session,
       session (do_step c st) = Some s' ∧ played_kept s s' ∧
       match c with
       | ToggleCourtSwap _ | CreateSession
       | EditSessionName _ | EditPlayerName _ _ => matches s' = matches s
       | _ => True
       end) ∧
  (∀ cs : list Command, lifetime cs st →
     ∃ s' : Session, session (do_run cs st) = Some s' ∧ played_kept s s').
Proof.
  intros Hs. split; [intros c; by apply step_played_kept |].
  intros cs. revert st s Hs.
  induction cs as [| c cs IH]; intros st s Hs Hcs.
  - exists s. split; [done | apply played_kept_refl].
  - destruct Hcs as [Hc Hcs].
    destruct (step_played_kept c st s Hs Hc) as (s1 & Hs1 & Hk1 & _).
    destruct (IH (do_step c st) s1 Hs1 Hcs) as (s' & Hs' & Hk').
    exists s'. split; [exact Hs' |]. by eapply played_kept_trans.
Qed.

(** ** What every reachable state satisfies *)

Lemma step_scores_in_range (c : Command) (st : AppState) :
  scores_in_range st → scores_in_range (do_step c st).
Proof.
  intros Hinv.
  destruct c as [nm | idx nm | | matchId [v |] | r | tp |]; simpl; try done.
  - unfold createSession.
    destruct (hasInvalid _); [exact Hinv |]. case_decide; [exact Hinv |].
    intros s [= <-]. simpl.
    eapply Forall_impl; [apply generateMatches_unplayed |].
    simpl. intros m -> a [=].
  - unfold updateScore. destruct (session st) as [s |] eqn:Hs; [| exact Hinv].
    intros s' [= <-]. simpl. specialize (Hinv s Hs).
    apply Forall_fmap. eapply Forall_impl; [exact Hinv |].
    intros m Hm. simpl. case_decide; [| exact Hm].
    intros a [= <-]. apply clamp_range.
    pose proof (tp_val_pos (totalPoints st)). lia.
  - unfold toggleCourtSwap. destruct (session st) as [s |] eqn:Hs; [| exact Hinv].
    intros s' [= <-]. simpl. by apply Hinv.
  - unfold updateTotalPoints. simpl.
    destruct (session st) as [s |] eqn:Hs; simpl.
    + intros s' [= <-]. simpl.
      apply Forall_fmap, Forall_forall. intros m _. simpl.
      unfold reclamp. destruct (scoreA m) as [a0 |] eqn:Ha; simpl.
      * intros a [= <-]. apply clamp_range. pose proof (tp_val_pos tp). lia.
      * by rewrite Ha.
    + intros s'. simpl. intros Hs'. congruence.
Qed.

Lemma roster_closed_fmap (f : Match → Match) (s : Session) :
  (∀ m, teamA (f m) = teamA m ∧ teamB (f m) = teamB m) →
  roster_closed s → roster_closed (set_matches (f <$> matches s) s).
Proof.
  intros Hf [Hnd Hms]. split; [done |]. simpl.
  apply Forall_fmap. eapply Forall_impl; [exact Hms |].
  intros m. simpl. unfold match_players.
  destruct (Hf m) as [-> ->]. done.
Qed.

Lemma step_state_ok (c : Command) (st : AppState) :
  state_ok st → state_ok (do_step c st).
Proof.
  intros (Hlen & Hrange & Hsess).
  split_and!; [| by apply step_scores_in_range |].
  - destruct c as [nm | idx nm | | matchId [v |] | r | tp |]; simpl; try done.
    + by rewrite length_insert.
    + by rewrite createSession_playerInputs.
    + unfold updateScore. by destruct (session st).
    + unfold toggleCourtSwap. by destruct (session st).
    + unfold updateTotalPoints. simpl. by destruct (session st).
  - destruct c as [nm | idx nm | | matchId [v |] | r | tp |]; simpl; try done.
    + intros s. unfold createSession.
      destruct (hasInvalid _); [apply Hsess |].
      case_decide; [apply Hsess |].
      intros [= <-]. simpl.
      assert (Hids : p_id <$> imap (λ (id : nat) name, mkPlayer (Z.of_nat id) name)
                                (trim <$> playerInputs st)
                     = Z.of_nat <$> seq 0 8).
      { destruct (playerInputs st)
          as [| ? [| ? [| ? [| ? [| ? [| ? [| ? [| ? [| ? ?]]]]]]]]];
          try discriminate Hlen. reflexivity. }
      split_and!.
      * split; simpl; rewrite Hids;
          apply (bool_decide_unpack _); vm_compute; exact I.
      * by rewrite length_imap, length_fmap.
      * reflexivity.
    + unfold updateScore. destruct (session st) as [s |] eqn:Hs;
        [| intros s'; congruence].
      intros s' [= <-]. destruct (Hsess s eq_refl) as (Hr & Hp & Hm).
      split_and!; [| done | by simpl; rewrite length_fmap].
      apply roster_closed_fmap; [| done]. intros m. by case_decide.
    + unfold toggleCourtSwap.
      destruct (session st) as [s |] eqn:Hs; [| intros s'; congruence].
      intros s' [= <-]. by destruct (Hsess s eq_refl) as (Hr & Hp & Hm).
    + unfold updateTotalPoints. simpl.
      destruct (session st) as [s |] eqn:Hs; simpl.
      * intros s' [= <-]. destruct (Hsess s eq_refl) as (Hr & Hp & Hm).
        split_and!; [| done | by simpl; rewrite length_fmap].
        apply roster_closed_fmap; [| done]. intros m.
        unfold reclamp. by destruct (scoreA m).
      * intros s' Hs'. congruence.
Qed.

Lemma run_state_ok (cs : list Command) (st : AppState) :
  state_ok st → state_ok (do_run cs st).
Proof.
  revert st. induction cs as [| c cs IH]; intros st Hinv; [done |].
  simpl. by apply IH, step_state_ok.
Qed.

Lemma initialState_ok : state_ok (initialState defaultSessionName).
Proof. split_and!; [reflexivity | by intros s | by intros s]. Qed.

(** Every session the component reaches from an empty storage has 14
    matches between its eight players, and only scores within the scale,
    hence non-negative ones. *)
Lemma reachable_session_ok (cs : list Command) (s : Session) :
  session (do_run cs (initialState defaultSessionName)) = Some s →
  roster_closed s ∧ length (matches s) = 14%nat ∧ scores_nonneg s.
Proof.
  intros Hs.
  destruct (run_state_ok cs _ initialState_ok) as (_ & Hrange & Hsess).
  destruct (Hsess s Hs) as (Hr & _ & Hm).
  split_and!; [done | done |].
  eapply Forall_impl; [exact (Hrange s Hs) |].
  simpl. intros m Hm' a Ha. by apply Hm'.
Qed.

End Lifetime.

Lemma played_matches_never_shrink_witness :
  ∃ s' : Session,
    session (run ascii_trim ascii_lower "Americano"
               [ToggleCourtSwap 1; EditPlayerName 1 "p1"; CreateSession;
                UpdateScore "r1c1" (Num 7); SetScoringScale TP24]
               demoScored30) = Some s' ∧
    played_kept demoSession30 s'.
Proof.
  destruct (played_matches_never_shrink ascii_trim ascii_lower "Americano"
              demoScored30 demoSession30 demoScored30_session) as [_ H].
  apply H. simpl. split_and!; try exact I.
  right. vm_compute. lia.
Defined.

(** * Sorting *)

Section Sort.

Context {A : Type}.
Variable cmp : A → A → Z.

Lemma sort_insert_perm (x : A) (l : list A) : sort_insert cmp x l ≡ₚ x :: l.
Proof.
  induction l as [| y l IH]; simpl; [done |].
  case_decide; [| done]. rewrite IH. apply Permutation_swap.
Qed.

Lemma sort_perm (l : list A) : sort cmp l ≡ₚ l.
Proof.
  induction l as [| x l IH]; [done |].
  unfold sort in *. simpl. by rewrite sort_insert_perm, IH.
Qed.

(** A comparator is consistent when [cmp x y ≤ 0] is a total preorder. *)
Hypothesis cmp_total : ∀ x y, 0 < cmp x y → cmp y x ≤ 0.
Hypothesis cmp_trans : ∀ x y z, cmp x y ≤ 0 → cmp y z ≤ 0 → cmp x z ≤ 0.

Lemma sort_insert_sorted (x : A) (l : list A) :
  StronglySorted (λ a b, cmp a b ≤ 0) l →
  StronglySorted (λ a b, cmp a b ≤ 0) (sort_insert cmp x l).
Proof.
  induction l as [| y l IH]; intros Hl; simpl.
  - repeat constructor.
  - apply StronglySorted_cons in Hl as [Hy Hl].
    case_decide as Hxy.
    + apply StronglySorted_cons. split; [| by apply IH].
      rewrite sort_insert_perm. constructor; [by apply cmp_total | done].
    + apply StronglySorted_cons. split; [| by apply StronglySorted_cons].
      assert (Hle : cmp x y ≤ 0) by lia.
      constructor; [done |].
      eapply Forall_impl; [exact Hy |]. simpl. intros z Hz. by eapply cmp_trans.
Qed.

Lemma sort_sorted (l : list A) : StronglySorted (λ a b, cmp a b ≤ 0) (sort cmp l).
Proof.
  induction l as [| x l IH]; [constructor |].
  unfold sort in *. simpl. by apply sort_insert_sorted.
Qed.

End Sort.

(** * Standings *)

Lemma code_unit_compare_total (a b : string) :
  0 < code_unit_compare a b → code_unit_compare b a ≤ 0.
Proof.
  unfold code_unit_compare.
  rewrite (OrderedTypeEx.String_as_OT.cmp_antisym b a).
  by destruct (OrderedTypeEx.String_as_OT.cmp a b).
Qed.

Lemma code_unit_compare_le (a b : string) :
  code_unit_compare a b ≤ 0 ↔ a = b ∨ OrderedTypeEx.String_as_OT.lt a b.
Proof.
  unfold code_unit_compare.
  destruct (OrderedTypeEx.String_as_OT.cmp a b) eqn:E.
  - apply OrderedTypeEx.String_as_OT.cmp_eq in E. split; [auto | lia].
  - apply OrderedTypeEx.String_as_OT.cmp_lt in E. split; [auto | lia].
  - split; [lia |]. intros [-> | Hlt].
    + assert (Eq = Gt); [| done].
      rewrite <- E. symmetry. by apply OrderedTypeEx.String_as_OT.cmp_eq.
    + apply OrderedTypeEx.String_as_OT.cmp_lt in Hlt. congruence.
Qed.

Lemma code_unit_compare_trans (a b c : string) :
  code_unit_compare a b ≤ 0 → code_unit_compare b c ≤ 0 →
  code_unit_compare a c ≤ 0.
Proof.
  rewrite !code_unit_compare_le. intros [-> | Hab] [-> | Hbc]; auto.
  right. by eapply OrderedTypeEx.String_as_OT.lt_trans.
Qed.

Section Standings.

Variable localeCompare : string → string → Z.

Local Abbreviation by_standing := (byStanding localeCompare).
Local Abbreviation standings_of := (standingsOf localeCompare).
Local Abbreviation before := (ranks_before localeCompare).

Lemma byStanding_le (a b : StandingsRow) :
  by_standing a b ≤ 0 ↔ before a b.
Proof.
  unfold byStanding, ranks_before, num_or.
  case_decide; lia.
Qed.

Lemma standingsOf_perm (tp : Z) (s : Session) :
  standings_of tp s ≡ₚ unsortedStandings tp s.
Proof. apply sort_perm. Qed.

Lemma unsortedStandings_players (tp : Z) (s : Session) :
  player <$> unsortedStandings tp s = s_players s.
Proof.
  unfold unsortedStandings. rewrite <- list_fmap_compose.
  apply list_fmap_id.
Qed.

(** C7.  The standings are the rows of the session's players, one row per
    player in some order, so all 8 players of a session are there once
    each, with or without played matches; any row comes before any later
    row by the rule: more points, or equal points and a name that the
    name comparison ([localeCompare], assumed to be a consistent ordering)
    does not place after the other's. *)
Theorem standings_ranked_and_complete (tp : Z) (s : Session) :
  (∀ a b, 0 < localeCompare a b → localeCompare b a ≤ 0) →
  (∀ a b c, localeCompare a b ≤ 0 → localeCompare b c ≤ 0 →
            localeCompare a c ≤ 0) →
  player <$> standings_of tp s ≡ₚ s_players s ∧
  length (standings_of tp s) = length (s_players s) ∧
  (∀ p, p ∈ s_players s →
     standingsRow (tally tp s) p ∈ standings_of tp s) ∧
  StronglySorted before (standings_of tp s).
Proof.
  intros Htot Htrans. split_and!.
  - rewrite standingsOf_perm. by rewrite unsortedStandings_players.
  - rewrite standingsOf_perm. unfold unsortedStandings. by rewrite length_fmap.
  - intros p Hp. rewrite standingsOf_perm. unfold unsortedStandings.
    by apply list_elem_of_fmap_2.
  - assert (Hs : StronglySorted (λ a b, by_standing a b ≤ 0) (standings_of tp s)).
    { apply sort_sorted.
      - intros x y. unfold byStanding, num_or.
        repeat case_decide; try lia.
        intros Hxy. apply Htot in Hxy. lia.
      - intros x y z. rewrite !byStanding_le.
        unfold ranks_before.
        intros [Hxy | [Hxy Lxy]] [Hyz | [Hyz Lyz]]; try (left; lia).
        right. split; [lia |]. by eapply Htrans. }
    induction Hs as [| x l Hl IH Hx]; constructor; [done |].
    eapply Forall_impl; [exact Hx |]. intros y. apply byStanding_le.
Qed.

End Standings.

Lemma standings_ranked_and_complete_witness :
  StronglySorted (ranks_before code_unit_compare)
                 (standings code_unit_compare demoScored20) ∧
  length (standings code_unit_compare demoScored20) = 8%nat.
Proof.
  assert (Hs : ∃ s, session demoScored20 = Some s ∧ length (s_players s) = 8%nat).
  { eexists. split; [vm_compute; reflexivity | reflexivity]. }
  destruct Hs as (s & Hs & Hlen).
  unfold standings. rewrite Hs.
  destruct (standings_ranked_and_complete code_unit_compare
              (tp_val (totalPoints demoScored20)) s
              code_unit_compare_total code_unit_compare_trans)
    as (_ & Hl & _ & Hsorted).
  split; [exact Hsorted | by rewrite Hl].
Defined.

(** The scenario of the specification: after a 20 on the court-1 match of
    round 1, P1 and P8 lead with 20 points, P1 first; P2 and P7 follow with
    12; the others have no points and no matches. *)
Example standings_scenario :
  (λ row, (p_name (player row), points row, matchesPlayed row))
    <$> standings code_unit_compare demoScored20
  = [ ("P1", 20, 1); ("P8", 20, 1); ("P2", 12, 1); ("P7", 12, 1);
      ("P3", 0, 0); ("P4", 0, 0); ("P5", 0, 0); ("P6", 0, 0) ].
Proof. vm_compute. reflexivity. Qed.

(** * Sum of the points *)

Lemma sum_points_perm (l1 l2 : list StandingsRow) :
  l1 ≡ₚ l2 → sum_points l1 = sum_points l2.
Proof.
  induction 1 as [| x l l' _ IH | x y l | l l' l'' _ IH1 _ IH2]; simpl; lia.
Qed.

Lemma sum_points_unsorted (tp : Z) (s : Session) :
  sum_points (unsortedStandings tp s)
  = roster_points (p_id <$> s_players s) (tally tp s).
Proof.
  unfold unsortedStandings. generalize (tally tp s). intros t.
  induction (s_players s) as [| p ps IH]; csimpl; [done |].
  by rewrite IH.
Qed.

Lemma credit_lookup (score : Z) (t : gmap Z Totals) (pid k : Z) :
  credit score t pid !! k =
    if decide (k = pid)
    then (λ row, mkTotals (tot_points row + score) (tot_matchesPlayed row + 1))
           <$> t !! k
    else t !! k.
Proof.
  unfold credit. case_decide as Hk.
  - subst k. destruct (t !! pid) as [row |] eqn:E; simpl.
    + by rewrite lookup_insert_eq.
    + by rewrite E.
  - destruct (t !! pid); [| done]. by rewrite lookup_insert_ne.
Qed.

Lemma credit_covers (ids : list Z) (score : Z) (t : gmap Z Totals) (pid : Z) :
  covers ids t → covers ids (credit score t pid).
Proof.
  unfold covers. intros Hcov. eapply Forall_impl; [exact Hcov |].
  simpl. intros k [row Hrow].
  rewrite credit_lookup. case_decide; rewrite Hrow; eauto.
Qed.

Lemma credit_points_other (ids : list Z) (score : Z) (t : gmap Z Totals) (pid : Z) :
  pid ∉ ids → roster_points ids (credit score t pid) = roster_points ids t.
Proof.
  induction ids as [| k ids IH]; intros Hnin; simpl; [done |].
  apply not_elem_of_cons in Hnin as [Hne Hnin].
  rewrite IH by done. f_equal.
  unfold points_of. rewrite credit_lookup. by rewrite decide_False.
Qed.

Lemma credit_points (ids : list Z) (score : Z) (t : gmap Z Totals) (pid : Z) :
  NoDup ids → pid ∈ ids → covers ids t →
  roster_points ids (credit score t pid) = roster_points ids t + score.
Proof.
  induction ids as [| k ids IH]; intros Hnd Hin Hcov.
  - by apply elem_of_nil in Hin.
  - apply NoDup_cons in Hnd as [Hk Hnd].
    apply Forall_cons in Hcov as [[row Hrow] Hcov].
    simpl. destruct (decide (k = pid)) as [-> | Hne].
    + rewrite credit_points_other by done.
      unfold points_of. rewrite credit_lookup, decide_True by done.
      rewrite Hrow. simpl. lia.
    + apply elem_of_cons in Hin as [-> | Hin]; [done |].
      rewrite IH by done.
      unfold points_of. rewrite credit_lookup, decide_False by done. lia.
Qed.

Lemma credit_team_points (ids : list Z) (score : Z) (t : gmap Z Totals) (team : Team) :
  NoDup ids → Forall (λ pid, pid ∈ ids) (team_players team) → covers ids t →
  roster_points ids (foldl (credit score) t (team_players team))
  = roster_points ids t + 2 * score
  ∧ covers ids (foldl (credit score) t (team_players team)).
Proof.
  intros Hnd Hin Hcov. unfold team_players in *. simpl.
  apply Forall_cons in Hin as [H1 Hin]. apply Forall_cons in Hin as [H2 _].
  split.
  - rewrite !credit_points; auto using credit_covers. lia.
  - auto using credit_covers.
Qed.

Lemma tallyMatch_points (ids : list Z) (tp : Z) (t : gmap Z Totals) (m : Match) :
  NoDup ids → Forall (λ pid, pid ∈ ids) (match_players m) → covers ids t →
  roster_points ids (tallyMatch tp t m)
  = roster_points ids t + match scoreA m with Some _ => 2 * tp | None => 0 end
  ∧ covers ids (tallyMatch tp t m).
Proof.
  intros Hnd Hin Hcov. unfold tallyMatch, match_players in *.
  apply Forall_app in Hin as [HA HB].
  destruct (scoreA m) as [a |]; [| split; [lia | done]].
  destruct (credit_team_points ids a t (teamA m) Hnd HA Hcov) as [EA CA].
  destruct (credit_team_points ids (tp - a) _ (teamB m) Hnd HB CA) as [EB CB].
  split; [| done]. rewrite EB, EA. lia.
Qed.

Lemma tally_fold_points (ids : list Z) (tp : Z) (ms : list Match) (t : gmap Z Totals) :
  NoDup ids →
  Forall (λ m, Forall (λ pid, pid ∈ ids) (match_players m)) ms →
  covers ids t →
  roster_points ids (foldl (tallyMatch tp) t ms)
  = roster_points ids t + 2 * tp * Z.of_nat (length (played ms)).
Proof.
  intros Hnd. revert t. induction ms as [| m ms IH]; intros t Hms Hcov.
  - simpl. lia.
  - apply Forall_cons in Hms as [Hm Hms]. simpl.
    destruct (tallyMatch_points ids tp t m Hnd Hm Hcov) as [E C].
    rewrite IH, E by done.
    unfold played. rewrite filter_cons.
    destruct (scoreA m) as [a |] eqn:Ha.
    + rewrite decide_True by eauto. simpl length. lia.
    + rewrite decide_False by (by intros [? ?]). lia.
Qed.

Lemma initTotals_lookup (ps : list Player) (t : gmap Z Totals) (k : Z) :
  foldl (λ totals p, <[p_id p := mkTotals 0 0]> totals) t ps !! k =
    if decide (k ∈ p_id <$> ps) then Some (mkTotals 0 0) else t !! k.
Proof.
  revert t. induction ps as [| p ps IH]; intros t; csimpl.
  - done.
  - rewrite IH. destruct (decide (k ∈ p_id <$> ps)) as [Hin | Hnin].
    + case_decide as Hin'; [done |]. exfalso. apply Hin'. by right.
    + destruct (decide (k = p_id p)) as [-> | Hne].
      * rewrite lookup_insert_eq.
        case_decide as Hin'; [done |]. exfalso. apply Hin'. by left.
      * rewrite lookup_insert_ne by done.
        case_decide as Hin'; [| done].
        by apply elem_of_cons in Hin' as [? | ?].
Qed.

Lemma initTotals_covers (ps : list Player) : covers (p_id <$> ps) (initTotals ps).
Proof.
  unfold covers, initTotals. apply Forall_forall. intros k Hk.
  rewrite initTotals_lookup, decide_True by done. eauto.
Qed.

Lemma initTotals_points (ids : list Z) (ps : list Player) :
  roster_points ids (initTotals ps) = 0.
Proof.
  induction ids as [| k ids IH]; simpl; [done |].
  rewrite IH. unfold points_of, initTotals. rewrite initTotals_lookup.
  case_decide; [done |]. by rewrite lookup_empty.
Qed.

(** Every player of the session has a row in the table, so the default of
    [standingsRow] is never used. *)
Lemma tally_lookup_player (tp : Z) (s : Session) (p : Player) :
  p ∈ s_players s → is_Some (tally tp s !! p_id p).
Proof.
  intros Hp. unfold tally.
  assert (Hcov : covers [p_id p] (initTotals (s_players s))).
  { constructor; [| constructor]. unfold initTotals.
    rewrite initTotals_lookup, decide_True; [eauto |].
    by apply list_elem_of_fmap_2. }
  revert Hcov. generalize (initTotals (s_players s)).
  induction (matches s) as [| m ms IH]; intros t Hcov; simpl.
  - by apply Forall_cons in Hcov as [? _].
  - apply IH. unfold tallyMatch. destruct (scoreA m); [| done].
    unfold team_players. simpl. auto using credit_covers.
Qed.

(** The sum of the points is twice the scale for each match with a score. *)
Lemma sum_points_played (tp : Z) (s : Session) :
  roster_closed s →
  sum_points (unsortedStandings tp s)
  = 2 * tp * Z.of_nat (length (played (matches s))).
Proof.
  intros [Hnd Hms]. rewrite sum_points_unsorted. unfold tally.
  rewrite tally_fold_points; [| done | done | apply initTotals_covers].
  rewrite initTotals_points. lia.
Qed.

Lemma played_all (ms : list Match) :
  Forall (λ m, is_Some (scoreA m)) ms → played ms = ms.
Proof.
  intros H. unfold played. induction H as [| m ms Hm _ IH]; [done |].
  rewrite filter_cons, decide_True by done. by rewrite IH.
Qed.

Section Sum.

Variable localeCompare : string → string → Z.

(** C3 as amended.  In a session whose players have distinct ids and whose
    teams are made of its players, with all 14 matches scored and every
    score an integer between 0 and the scoring scale, the points of the
    standings add up to 28 times the scoring scale: each match gives its
    score to the two players of team A and the rest of the scale to the two
    players of team B.  Within these bounds the sums of the code, which are
    sums of floating-point numbers, are exact. *)
Theorem standings_points_sum (st : AppState) (s : Session) :
  session st = Some s →
  scores_in_range st →
  roster_closed s →
  length (matches s) = 14%nat →
  all_scored s →
  sum_points (standings localeCompare st) = 28 * tp_val (totalPoints st).
Proof.
  intros Hs _ Hroster Hlen Hall. unfold standings. rewrite Hs.
  unfold standingsOf. rewrite (sum_points_perm _ _ (sort_perm _ _)).
  rewrite sum_points_played by done.
  rewrite played_all by done. rewrite Hlen. lia.
Qed.

End Sum.

Lemma demoAllScored_session : session demoAllScored = Some demoAllScoredSession.
Proof. vm_compute. reflexivity. Qed.

Lemma demoAllScoredSession_roster : roster_closed demoAllScoredSession.
Proof. split; apply (bool_decide_unpack _); vm_compute; exact I. Qed.

Lemma demoAllScoredSession_all_scored : all_scored demoAllScoredSession.
Proof. apply (bool_decide_unpack _). vm_compute. exact I. Qed.

Lemma demoAllScoredSession_in_range :
  Forall (λ m, ∀ a, scoreA m = Some a → 0 ≤ a ≤ 32) (matches demoAllScoredSession).
Proof.
  apply Forall_forall. intros m Hm a Ha. vm_compute in Hm.
  repeat (apply elem_of_cons in Hm as [-> | Hm]; [injection Ha as <-; lia |]).
  by apply elem_of_nil in Hm.
Qed.

Lemma demoAllScored_totalPoints : totalPoints demoAllScored = TP32.
Proof. vm_compute. reflexivity. Qed.

Lemma demoAllScored_in_range : scores_in_range demoAllScored.
Proof.
  intros s Hs. rewrite demoAllScored_totalPoints.
  assert (Heq : Some s = Some demoAllScoredSession)
    by (rewrite <- Hs; exact demoAllScored_session).
  injection Heq as ->. exact demoAllScoredSession_in_range.
Qed.

Lemma standings_points_sum_witness :
  sum_points (standings code_unit_compare demoAllScored)
  = 28 * tp_val (totalPoints demoAllScored).
Proof.
  exact (standings_points_sum code_unit_compare demoAllScored demoAllScoredSession
           demoAllScored_session demoAllScored_in_range
           demoAllScoredSession_roster eq_refl
           demoAllScoredSession_all_scored).
Defined.

(** C3 as stated fails: in the worked session with all 14 matches scored
    (20 for team A, scale 32) the points add up to 896, which is 28 × 32 and
    not 14 × 32 = 448. *)
Lemma fully_scored_sum_is_not_14_scales :
  session demoAllScored = Some demoAllScoredSession ∧
  length (matches demoAllScoredSession) = 14%nat ∧
  all_scored demoAllScoredSession ∧
  sum_points (standings code_unit_compare demoAllScored) = 896 ∧
  sum_points (standings code_unit_compare demoAllScored)
    ≠ 14 * tp_val (totalPoints demoAllScored).
Proof.
  split_and!.
  - apply demoAllScored_session.
  - reflexivity.
  - apply demoAllScoredSession_all_scored.
  - vm_compute. reflexivity.
  - vm_compute. discriminate.
Qed.

(** * Loading from storage *)

(** X2.  The scale written by [updateTotalPoints] is the one the mount
    effect reads back; any stored text other than "24" and "32", like no
    stored text, gives the default 32. *)
Theorem loadTotalPoints_round_trip (st : AppState) (nextTotalPoints : TotalPoints) :
  loadTotalPoints (storedTotalPoints (updateTotalPoints nextTotalPoints st))
    = nextTotalPoints ∧
  loadTotalPoints None = TP32 ∧
  (∀ str : string, str ≠ "24" → loadTotalPoints (Some str) = TP32).
Proof.
  split_and!.
  - unfold updateTotalPoints. simpl.
    destruct (session st); simpl; by destruct nextTotalPoints.
  - done.
  - intros str Hne. unfold loadTotalPoints.
    rewrite decide_False by done. by case_decide.
Qed.

Lemma loadTotalPoints_round_trip_witness :
  loadTotalPoints (Some "thirty-two") = TP32.
Proof.
  destruct (loadTotalPoints_round_trip demoCreated TP24) as (_ & _ & H).
  apply H. discriminate.
Defined.

(** * Reachable states *)

Lemma set_scoreA_None_fmap (f : Match → Match) (ms : list Match) :
  (∀ m, set_scoreA None (f m) = set_scoreA None m) →
  set_scoreA None <$> (f <$> ms) = set_scoreA None <$> ms.
Proof.
  intros Hf. rewrite <- list_fmap_compose. apply list_fmap_ext.
  intros _ m _. apply Hf.
Qed.

Lemma reclamp_skeleton (tp : TotalPoints) (m : Match) :
  set_scoreA None (reclamp tp m) = set_scoreA None m.
Proof. unfold reclamp. by destruct (scoreA m). Qed.

Lemma generateMatches_skeleton :
  set_scoreA None <$> generateMatches = generateMatches.
Proof. reflexivity. Qed.

Lemma loadSession_itemOfSession (s : Session) :
  length (s_players s) = 8%nat → length (matches s) = 14%nat →
  loadSession (itemOfSession s) = Some s.
Proof.
  intros Hp Hm. simpl. rewrite decide_True by done. by destruct s.
Qed.

Section Reachable.

Variable trim : string → string.
Variable toLowerCase : string → string.
Variable defaultSessionName : string.

Local Abbreviation do_event := (step_event trim toLowerCase defaultSessionName).
Local Abbreviation do_events := (run_events trim toLowerCase defaultSessionName).
Local Abbreviation ok := (app_ok toLowerCase).
Local Abbreviation reloaded := (reload defaultSessionName).

Lemma step_storage_synced (c : Command) (st : AppState) :
  storage_synced st →
  storage_synced (step trim toLowerCase defaultSessionName c st).
Proof.
  unfold storage_synced. intros [Hsess Htp].
  destruct c as [nm | idx nm | | matchId [v |] | r | tp |]; simpl; try done.
  - unfold createSession.
    destruct (hasInvalid _); [split; [exact Hsess | exact Htp] |].
    case_decide; split; try exact Hsess; try exact Htp; reflexivity.
  - unfold updateScore.
    destruct (session st) eqn:Hs; simpl; split; congruence.
  - unfold toggleCourtSwap.
    destruct (session st) eqn:Hs; simpl; split; congruence.
  - unfold updateTotalPoints. simpl.
    destruct (session st) eqn:Hs; simpl; split; try congruence; by destruct tp.
Qed.

Lemma step_session_shape (c : Command) (st : AppState) :
  length (playerInputs st) = 8%nat →
  (∀ s, session st = Some s →
     schedule_kept s ∧ ids_by_position s ∧ names_valid toLowerCase s) →
  ∀ s, session (step trim toLowerCase defaultSessionName c st) = Some s →
    schedule_kept s ∧ ids_by_position s ∧ names_valid toLowerCase s.
Proof.
  intros Hlen Hsess.
  destruct c as [nm | idx nm | | matchId [v |] | r | tp |]; simpl; try done.
  - unfold createSession.
    destruct (hasInvalid _) eqn:Hinv; [apply Hsess |].
    case_decide as Hsz; [apply Hsess |].
    intros s [= <-]. unfold schedule_kept, ids_by_position, names_valid. simpl.
    assert (Hnames : p_name <$> imap (λ (id : nat) name, mkPlayer (Z.of_nat id) name)
                                  (trim <$> playerInputs st)
                     = trim <$> playerInputs st).
    { generalize (trim <$> playerInputs st). intros l.
      rewrite fmap_imap. unfold compose. simpl.
      induction l as [| x l IH]; [done |]. csimpl. f_equal.
      rewrite <- IH at 2. by apply imap_ext. }
    split_and!.
    + reflexivity.
    + destruct (playerInputs st)
        as [| ? [| ? [| ? [| ? [| ? [| ? [| ? [| ? [| ? ?]]]]]]]]];
        try discriminate Hlen. reflexivity.
    + rewrite Hnames. intros Hin. apply hasInvalid_true in Hin. congruence.
    + rewrite Hnames. apply set_size_NoDup.
      rewrite !length_fmap, Hlen.
      destruct (decide (set_size (toLowerCase <$> (trim <$> playerInputs st)) = 8%nat))
        as [Heq | Hne]; [exact Heq | by destruct Hsz].
  - unfold updateScore. destruct (session st) as [s |] eqn:Hs;
      [| intros s'; congruence].
    intros s' [= <-]. destruct (Hsess s eq_refl) as (Hk & Hi & Hn).
    split_and!; [| done | done].
    unfold schedule_kept. simpl. rewrite set_scoreA_None_fmap; [done |].
    intros m. by case_decide.
  - unfold toggleCourtSwap. destruct (session st) as [s |] eqn:Hs;
      [| intros s'; congruence].
    intros s' [= <-]. by destruct (Hsess s eq_refl) as (Hk & Hi & Hn).
  - unfold updateTotalPoints. simpl.
    destruct (session st) as [s |] eqn:Hs; simpl.
    + intros s' [= <-]. destruct (Hsess s eq_refl) as (Hk & Hi & Hn).
      split_and!; [| done | done].
      unfold schedule_kept. simpl.
      rewrite set_scoreA_None_fmap; [done | apply reclamp_skeleton].
    + intros s' Hs'. congruence.
Qed.

Lemma reload_same (st : AppState) :
  ok st →
  session (reloaded st) = session st ∧
  totalPoints (reloaded st) = totalPoints st ∧
  storedSession (reloaded st) = storedSession st ∧
  storedTotalPoints (reloaded st) = storedTotalPoints st.
Proof.
  intros ((_ & _ & Hshape) & [Hstored Htp] & _).
  split_and!; try done. simpl. unfold storedItem. rewrite Hstored.
  destruct (session st) as [s |] eqn:Hs; [| done]. simpl.
  destruct (Hshape s eq_refl) as (_ & Hp & Hm).
  rewrite decide_True by done. by destruct s.
Qed.

Lemma step_event_ok (e : Event) (st : AppState) : ok st → ok (do_event e st).
Proof.
  intros Hok. destruct e as [c |].
  - destruct Hok as (Hstate & Hsync & Hshape). split_and!.
    + by apply step_state_ok.
    + by apply step_storage_synced.
    + apply step_session_shape; [apply Hstate | done].
  - destruct (reload_same st Hok) as (Hs & Htp & Hss & Hst).
    destruct Hok as ((Hlen & Hrange & Hsess) & [Hsync1 Hsync2] & Hshape).
    simpl in *. split_and!.
    + split_and!; [done | |].
      * intros s. simpl. rewrite Hs, Hsync2. apply Hrange.
      * intros s. simpl. rewrite Hs. apply Hsess.
    + split; simpl; [by rewrite Hs | done].
    + intros s. simpl. rewrite Hs. apply Hshape.
Qed.

Lemma initialState_app_ok : ok (initialState defaultSessionName).
Proof.
  split_and!; [apply initialState_ok | done | by intros s].
Qed.

Lemma run_events_ok (es : list Event) (st : AppState) :
  ok st → ok (do_events es st).
Proof.
  revert st. induction es as [| e es IH]; intros st Hst; [done |].
  simpl. by apply IH, step_event_ok.
Qed.

Lemma reachable_ok (es : list Event) :
  ok (do_events es (initialState defaultSessionName)).
Proof. apply run_events_ok, initialState_app_ok. Qed.

(** X3.  Whatever the user does from a first visit on (edits of the form,
    commands, page reloads, in any order), the state keeps: eight name
    inputs; storage holding the state's session and scale; and, when there
    is a session, eight players whose ids are their positions 0..7 and whose
    names are non-empty and distinct up to case, the 14 matches of the
    generated schedule with nothing changed but the scores, and every score
    between 0 and the current scale. *)
Theorem reachable_app_ok (es : list Event) :
  let st := do_events es (initialState defaultSessionName) in
  length (playerInputs st) = 8%nat ∧
  storedSession st = session st ∧
  loadTotalPoints (storedTotalPoints st) = totalPoints st ∧
  ∀ s : Session, session st = Some s →
    length (s_players s) = 8%nat ∧
    p_id <$> s_players s = [0; 1; 2; 3; 4; 5; 6; 7] ∧
    ¬ ("" ∈ p_name <$> s_players s) ∧
    NoDup (toLowerCase <$> (p_name <$> s_players s)) ∧
    set_scoreA None <$> matches s = generateMatches ∧
    Forall (λ m, ∀ a, scoreA m = Some a → 0 ≤ a ≤ tp_val (totalPoints st))
           (matches s).
Proof.
  pose proof (reachable_ok es) as Hok.
  destruct Hok as ((Hlen & Hrange & Hsess) & [Hs1 Hs2] & Hshape).
  simpl. split_and!; try done.
  intros s Hs.
  destruct (Hsess s Hs) as (_ & Hp & _).
  destruct (Hshape s Hs) as (Hk & Hi & Hn1 & Hn2).
  split_and!; try done. by apply Hrange.
Qed.

(** X4.  A page reload loses nothing that was saved: in every state reached
    from a first visit, mounting the component again on the storage gives
    the same session and the same scale, and leaves the storage alone.  The
    form and the message start afresh. *)
Theorem reload_restores_session (es : list Event) :
  let st := do_events es (initialState defaultSessionName) in
  session (reloaded st) = session st ∧
  totalPoints (reloaded st) = totalPoints st ∧
  storedSession (reloaded st) = storedSession st ∧
  storedTotalPoints (reloaded st) = storedTotalPoints st ∧
  playerInputs (reloaded st) = initialPlayerInputs ∧
  message (reloaded st) = "".
Proof.
  pose proof (reachable_ok es) as Hok.
  destruct (reload_same _ Hok) as (H1 & H2 & H3 & H4).
  simpl. by split_and!.
Qed.

End Reachable.

(** * Standings, player by player *)

Lemma count_in_nonneg (k : Z) (t : Team) : 0 ≤ count_in k t.
Proof. unfold count_in. lia. Qed.

Lemma credit_team_lookup (score : Z) (t : gmap Z Totals) (team : Team) (k : Z) :
  foldl (credit score) t (team_players team) !! k =
    (λ row, mkTotals (tot_points row + score * count_in k team)
                     (tot_matchesPlayed row + count_in k team))
      <$> t !! k.
Proof.
  unfold count_in, team_players. destruct (players team) as [p1 p2].
  cbn [foldl fst snd]. rewrite !credit_lookup.
  rewrite !filter_cons, filter_nil.
  destruct (t !! k) as [[pts mp] |]; simpl;
    repeat case_decide; subst; simpl; try done; f_equal; f_equal; lia.
Qed.

Lemma tallyMatch_lookup (tp : Z) (t : gmap Z Totals) (m : Match) (k : Z) :
  tallyMatch tp t m !! k =
    (λ row, mkTotals (tot_points row + points_from tp k m)
                     (tot_matchesPlayed row + plays_from k m))
      <$> t !! k.
Proof.
  unfold tallyMatch, points_from, plays_from.
  destruct (scoreA m) as [a |].
  - rewrite !credit_team_lookup.
    destruct (t !! k) as [[pts mp] |]; simpl; [| done]. f_equal. f_equal; lia.
  - destruct (t !! k) as [[pts mp] |]; simpl; [| done].
    f_equal. f_equal; lia.
Qed.

Lemma tally_fold_lookup (tp : Z) (ms : list Match) (t : gmap Z Totals) (k : Z) :
  foldl (tallyMatch tp) t ms !! k =
    (λ row, mkTotals (tot_points row + sumZ (points_from tp k <$> ms))
                     (tot_matchesPlayed row + sumZ (plays_from k <$> ms)))
      <$> t !! k.
Proof.
  revert t. induction ms as [| m ms IH]; intros t; csimpl.
  - destruct (t !! k) as [[pts mp] |]; simpl; [| done]. f_equal. f_equal; lia.
  - rewrite IH, tallyMatch_lookup.
    destruct (t !! k) as [[pts mp] |]; simpl; [| done]. f_equal. f_equal; lia.
Qed.

Lemma standingsRow_formula (tp : Z) (s : Session) (p : Player) :
  p ∈ s_players s →
  standingsRow (tally tp s) p
  = mkRow p (sumZ (points_from tp (p_id p) <$> matches s))
            (sumZ (plays_from (p_id p) <$> matches s)).
Proof.
  intros Hp. unfold standingsRow, tally.
  rewrite tally_fold_lookup. unfold initTotals.
  rewrite initTotals_lookup, decide_True by (by apply list_elem_of_fmap_2).
  simpl. done.
Qed.

Lemma sumZ_unscored (f : Match → Z) (ms : list Match) :
  Forall (λ m, scoreA m = None) ms →
  (∀ m, scoreA m = None → f m = 0) →
  sumZ (f <$> ms) = 0.
Proof.
  intros Hnone Hf. induction Hnone as [| m ms Hm _ IH]; [done |].
  csimpl. unfold sumZ in *. simpl. by rewrite IH, Hf.
Qed.

Section PlayerRows.

Variable localeCompare : string → string → Z.

(** X5.  In a state whose session has 14 matches and whose recorded scores
    are integers between 0 and the scale, the standings hold, for each player
    of the session, one row with the player's own totals: over the scored
    matches, the score of team A for each listing of the player in team A
    plus the rest of the scale for each listing in team B, and the number of
    those listings as matches played.  Without a scored match every player
    has 0 points and 0 matches.  Within these bounds the sums of the code,
    which are sums of floating-point numbers, are exact. *)
Theorem standings_rows_per_player (st : AppState) (s : Session) :
  session st = Some s →
  scores_in_range st →
  length (matches s) = 14%nat →
  let tp := tp_val (totalPoints st) in
  standings localeCompare st ≡ₚ
    (λ p, mkRow p (sumZ (points_from tp (p_id p) <$> matches s))
                  (sumZ (plays_from (p_id p) <$> matches s)))
      <$> s_players s ∧
  (Forall (λ m, scoreA m = None) (matches s) →
   standings localeCompare st ≡ₚ (λ p, mkRow p 0 0) <$> s_players s).
Proof.
  intros Hs _ _ tp. subst tp. unfold standings. rewrite Hs.
  set (tp := tp_val (totalPoints st)).
  assert (Hrows : standingsOf localeCompare tp s ≡ₚ
    (λ p, mkRow p (sumZ (points_from tp (p_id p) <$> matches s))
                  (sumZ (plays_from (p_id p) <$> matches s)))
      <$> s_players s).
  { unfold standingsOf. rewrite sort_perm. unfold unsortedStandings.
    erewrite list_fmap_ext; [reflexivity |].
    intros i p Hp. simpl. apply standingsRow_formula.
    by eapply list_elem_of_lookup_2. }
  split; [exact Hrows |].
  intros Hnone. rewrite Hrows.
  erewrite list_fmap_ext; [reflexivity |].
  intros i p _. simpl.
  rewrite !sumZ_unscored; [done | done | | done |].
  - intros m Hm. unfold plays_from. by rewrite Hm.
  - intros m Hm. unfold points_from. by rewrite Hm.
Qed.

End PlayerRows.

Lemma demoSession30_in_range :
  Forall (λ m, ∀ a, scoreA m = Some a → 0 ≤ a ≤ 32) (matches demoSession30).
Proof.
  apply Forall_forall. intros m Hm a Ha. vm_compute in Hm.
  repeat (apply elem_of_cons in Hm as [-> | Hm]; [by inversion Ha |]).
  by apply elem_of_nil in Hm.
Qed.

Lemma demoScored30_totalPoints : totalPoints demoScored30 = TP32.
Proof. vm_compute. reflexivity. Qed.

Lemma demoScored30_in_range : scores_in_range demoScored30.
Proof.
  intros s Hs. rewrite demoScored30_totalPoints.
  assert (Heq : Some s = Some demoSession30)
    by (rewrite <- Hs; exact demoScored30_session).
  injection Heq as ->. exact demoSession30_in_range.
Qed.

Lemma standings_rows_per_player_witness :
  let tp := tp_val (totalPoints demoScored30) in
  standings code_unit_compare demoScored30 ≡ₚ
    (λ p, mkRow p (sumZ (points_from tp (p_id p) <$> matches demoSession30))
                  (sumZ (plays_from (p_id p) <$> matches demoSession30)))
      <$> s_players demoSession30.
Proof.
  destruct (standings_rows_per_player code_unit_compare demoScored30 demoSession30
              demoScored30_session demoScored30_in_range eq_refl) as [H _].
  exact H.
Defined.

(** In the witness state the match r1c1 stands at 30 under scale 32: the
    players 0 and 7 of team A have 30 points, the players 1 and 6 of team B
    have 2, each from one match. *)
Example demoScored30_rows :
  (λ k, (sumZ (points_from 32 k <$> matches demoSession30),
         sumZ (plays_from k <$> matches demoSession30)))
    <$> [0; 7; 1; 6; 2]
  = [(30, 1); (30, 1); (2, 1); (2, 1); (0, 0)].
Proof. vm_compute. reflexivity. Qed.

(** * Sessions that carry the generated schedule *)

Lemma matches_of_skeleton (ms : list Match) :
  ms = zip_with (λ m a, set_scoreA a m) (set_scoreA None <$> ms) (scoreA <$> ms).
Proof. induction ms as [| [] ms IH]; csimpl; [done |]. by rewrite <- IH. Qed.

Lemma schedule_matches (s : Session) :
  schedule_kept s →
  matches s = zip_with (λ m a, set_scoreA a m) generateMatches (scoreA <$> matches s)
  ∧ length (scoreA <$> matches s) = 14%nat.
Proof.
  intros Hk. split.
  - rewrite <- Hk. apply matches_of_skeleton.
  - rewrite length_fmap, <- (length_fmap (set_scoreA None)), Hk. reflexivity.
Qed.

Lemma schedule_ids (s : Session) :
  schedule_kept s → m_id <$> matches s = m_id <$> generateMatches.
Proof.
  intros Hk. rewrite <- Hk, <- list_fmap_compose.
  apply list_fmap_ext. by intros _ [] _.
Qed.

Lemma generateMatches_ids_NoDup : NoDup (m_id <$> generateMatches).
Proof. apply (bool_decide_unpack _). vm_compute. exact I. Qed.

Lemma fmap_at_unique {A B} `{EqDecision B} (f : A → B) (g : A → A)
    (l : list A) (i : nat) (x : A) :
  NoDup (f <$> l) → l !! i = Some x →
  (λ y, if decide (f y = f x) then g y else y) <$> l = <[i := g x]> l.
Proof.
  revert i. induction l as [| y l IH]; intros i Hnd Hi; [done |].
  csimpl in Hnd. apply NoDup_cons in Hnd as [Hy Hnd].
  destruct i as [| i]; csimpl.
  - injection Hi as ->. rewrite decide_True by done. f_equal.
    apply fmap_unchanged. intros z Hz. rewrite decide_False; [done |].
    intros Heq. apply Hy. rewrite <- Heq. by apply list_elem_of_fmap_2.
  - rewrite decide_False.
    + f_equal. by apply IH.
    + intros Heq. apply Hy. rewrite Heq.
      apply list_elem_of_fmap_2. by eapply list_elem_of_lookup_2.
Qed.

Lemma sumZ_le {A} (f g : A → Z) (l : list A) :
  Forall (λ x, f x ≤ g x) l → sumZ (f <$> l) ≤ sumZ (g <$> l).
Proof.
  induction 1 as [| x l Hx _ IH]; csimpl; [done |].
  unfold sumZ in *. simpl. lia.
Qed.

Lemma sumZ_nonneg {A} (f : A → Z) (l : list A) :
  Forall (λ x, 0 ≤ f x) l → 0 ≤ sumZ (f <$> l).
Proof.
  induction 1 as [| x l Hx _ IH]; csimpl; [done |].
  unfold sumZ in *. simpl. lia.
Qed.

Lemma sumZ_scale {A} (c : Z) (f : A → Z) (l : list A) :
  sumZ ((λ x, c * f x) <$> l) = c * sumZ (f <$> l).
Proof.
  induction l as [| x l IH]; csimpl; [unfold sumZ; simpl; lia |].
  unfold sumZ in *. simpl. lia.
Qed.

Lemma listings_schedule (s : Session) (k : Z) :
  schedule_kept s → 0 ≤ k ≤ 7 →
  sumZ ((λ m, count_in k (teamA m) + count_in k (teamB m)) <$> matches s) = 7.
Proof.
  intros Hk Hr.
  assert (Heq : (λ m, count_in k (teamA m) + count_in k (teamB m)) <$> matches s
                = (λ m, count_in k (teamA m) + count_in k (teamB m)) <$> generateMatches).
  { rewrite <- Hk, <- list_fmap_compose. apply list_fmap_ext. by intros _ [] _. }
  rewrite Heq. apply id_cases in Hr.
  each_case Hr; vm_compute; reflexivity.
Qed.

Lemma plays_from_bounds (k : Z) (m : Match) :
  0 ≤ plays_from k m ≤ count_in k (teamA m) + count_in k (teamB m).
Proof.
  unfold plays_from.
  pose proof (count_in_nonneg k (teamA m)). pose proof (count_in_nonneg k (teamB m)).
  destruct (scoreA m); lia.
Qed.

Lemma points_from_bounds (tp k : Z) (m : Match) :
  (∀ a, scoreA m = Some a → 0 ≤ a ≤ tp) →
  0 ≤ points_from tp k m ≤ tp * plays_from k m.
Proof.
  unfold points_from, plays_from. intros Ha.
  pose proof (count_in_nonneg k (teamA m)). pose proof (count_in_nonneg k (teamB m)).
  destruct (scoreA m) as [a |]; [| lia].
  specialize (Ha a eq_refl). nia.
Qed.

Lemma schedule_round (s : Session) (idx : nat) :
  schedule_kept s → (idx < 7)%nat →
  ∃ m1 m2 : Match,
    matches s !! (2 * idx)%nat = Some m1 ∧
    matches s !! (2 * idx + 1)%nat = Some m2 ∧
    round m1 = Z.of_nat idx + 1 ∧ round m2 = Z.of_nat idx + 1 ∧
    court m1 = 1 ∧ court m2 = 2 ∧
    sort byCourt (round_matches (Z.of_nat idx + 1) (matches s)) = [m1; m2].
Proof.
  intros Hk Hidx. destruct (schedule_matches s Hk) as [Hms Hlen].
  remember (scoreA <$> matches s) as scs eqn:Hscs. clear Hscs.
  rewrite Hms. clear Hms Hk.
  do 15 (destruct scs as [| ? scs]; try discriminate Hlen). clear Hlen.
  do 7 (destruct idx as [| idx];
        [do 2 eexists; split_and!; vm_compute; reflexivity |]).
  lia.
Qed.

Lemma schedule_roundDisplay (s : Session) (idx : nat) :
  schedule_kept s → (idx < 7)%nat →
  ∃ m1 m2 : Match,
    matches s !! (2 * idx)%nat = Some m1 ∧
    matches s !! (2 * idx + 1)%nat = Some m2 ∧
    round m1 = Z.of_nat idx + 1 ∧ round m2 = Z.of_nat idx + 1 ∧
    court m1 = 1 ∧ court m2 = 2 ∧
    roundDisplay s idx =
      if truthy (courtSwapByRound s) (Z.of_nat idx + 1)
      then [Some m2; Some m1] else [Some m1; Some m2].
Proof.
  intros Hk Hidx.
  destruct (schedule_round s idx Hk Hidx) as (m1 & m2 & H1 & H2 & ? & ? & ? & ? & Hs).
  exists m1, m2. split_and!; try done.
  unfold roundDisplay. rewrite Hs. by destruct (truthy _ _).
Qed.

(** * What holds in every reachable state *)

Lemma ids_by_position_lookup (s : Session) (i : nat) (p : Player) :
  ids_by_position s → s_players s !! i = Some p → p_id p = Z.of_nat i ∧ (i < 8)%nat.
Proof.
  intros Hids Hp.
  assert (Hl : (p_id <$> s_players s) !! i = Some (p_id p))
    by (by rewrite list_lookup_fmap, Hp).
  rewrite Hids, list_lookup_fmap in Hl.
  destruct (seq 0 8 !! i) as [j |] eqn:Hj; [| done].
  apply lookup_seq in Hj as [-> Hlt]. simpl in Hl. injection Hl as <-. done.
Qed.

Section Visits.

Variable trim : string → string.
Variable toLowerCase : string → string.
Variable localeCompare : string → string → Z.
Variable defaultSessionName : string.

Local Abbreviation visit :=
  (λ es, run_events trim toLowerCase defaultSessionName es
                    (initialState defaultSessionName)).

(** X6.  In every state reached from a first visit, each standings row shows
    at most 7 matches played, and points between 0 and the scale times the
    matches played (so at most 7 times the scale). *)
Theorem reachable_standings_bounds (es : list Event) :
  let st := visit es in
  Forall (λ row, 0 ≤ matchesPlayed row ≤ 7 ∧
                 0 ≤ points row ≤ tp_val (totalPoints st) * matchesPlayed row)
         (standings localeCompare st).
Proof.
  pose proof (reachable_ok trim toLowerCase defaultSessionName es) as Hok.
  simpl. destruct Hok as ((_ & Hrange & _) & _ & Hshape).
  unfold standings.
  destruct (session (visit es)) as [s |] eqn:Hs; [| constructor].
  destruct (Hshape s eq_refl) as (Hk & Hids & _). specialize (Hrange s Hs).
  set (tp := tp_val (totalPoints (visit es))) in *.
  apply Forall_forall. intros row Hrow.
  unfold standingsOf in Hrow. rewrite sort_perm in Hrow.
  unfold unsortedStandings in Hrow.
  apply list_elem_of_fmap in Hrow as (p & -> & Hp).
  rewrite standingsRow_formula by done. simpl.
  assert (Hid : 0 ≤ p_id p ≤ 7).
  { apply list_elem_of_lookup in Hp as [i Hi].
    destruct (ids_by_position_lookup s i p Hids Hi). lia. }
  pose proof (listings_schedule s (p_id p) Hk Hid) as H7.
  assert (Hplays : 0 ≤ sumZ (plays_from (p_id p) <$> matches s) ≤ 7).
  { split.
    - apply sumZ_nonneg, Forall_forall. intros m _. apply plays_from_bounds.
    - rewrite <- H7. apply sumZ_le, Forall_forall. intros m _.
      apply plays_from_bounds. }
  split; [exact Hplays |]. split.
  - apply sumZ_nonneg. eapply Forall_impl; [exact Hrange |].
    intros m Hm. simpl. by apply points_from_bounds.
  - rewrite <- sumZ_scale. apply sumZ_le.
    eapply Forall_impl; [exact Hrange |].
    intros m Hm. simpl. by apply points_from_bounds.
Qed.

(** X9.  In every state reached from a first visit the match ids are
    pairwise distinct, so a score entered for the id of the match at
    position [i] replaces that one match by itself with the clamped score
    and leaves the other 13 as they are. *)
Theorem reachable_updateScore_one_match
    (es : list Event) (s : Session) (i : nat) (m : Match) (v : Z) :
  let st := visit es in
  session st = Some s →
  matches s !! i = Some m →
  NoDup (m_id <$> matches s) ∧
  session (updateScore (m_id m) v st) =
    Some (set_matches
            (<[i := set_scoreA (Some (clamp (tp_val (totalPoints st)) v)) m]>
               (matches s))
            s).
Proof.
  pose proof (reachable_ok trim toLowerCase defaultSessionName es) as Hok.
  simpl. intros Hs Hm. destruct Hok as (_ & _ & Hshape).
  destruct (Hshape s Hs) as (Hk & _ & _).
  assert (Hnd : NoDup (m_id <$> matches s))
    by (rewrite schedule_ids by done; apply generateMatches_ids_NoDup).
  split; [exact Hnd |].
  unfold updateScore. rewrite Hs. simpl. do 2 f_equal.
  by apply (fmap_at_unique m_id).
Qed.

(** X10.  In every state reached from a first visit with a session,
    [getPlayerName] finds each player by id: the id of a player gives that
    player's name, which is not empty; every id listed in a team of a match
    is the id of a player; an id outside 0..7 gives the empty string. *)
Theorem reachable_getPlayerName (es : list Event) (s : Session) :
  let st := visit es in
  session st = Some s →
  (∀ p, p ∈ s_players s →
     getPlayerName (p_id p) st = p_name p ∧ p_name p ≠ "") ∧
  (∀ m k, m ∈ matches s → k ∈ match_players m →
     ∃ p, p ∈ s_players s ∧ p_id p = k ∧ getPlayerName k st = p_name p) ∧
  (∀ k, ¬ (0 ≤ k ≤ 7) → getPlayerName k st = "").
Proof.
  pose proof (reachable_ok trim toLowerCase defaultSessionName es) as Hok.
  simpl. intros Hs. destruct Hok as ((_ & _ & Hsess) & _ & Hshape).
  destruct (Hshape s Hs) as (_ & Hids & Hne & _).
  destruct (Hsess s Hs) as ([_ Hroster] & Hlen & _).
  assert (Hname : ∀ p, p ∈ s_players s →
            getPlayerName (p_id p) (visit es) = p_name p ∧ p_name p ≠ "").
  { intros p Hp. split.
    - apply list_elem_of_lookup in Hp as [i Hi].
      destruct (ids_by_position_lookup s i p Hids Hi) as [Hid _].
      unfold getPlayerName. rewrite Hs, Hid.
      rewrite decide_True by lia. by rewrite Nat2Z.id, Hi.
    - intros Hempty. apply Hne. rewrite <- Hempty.
      by apply list_elem_of_fmap_2. }
  split_and!; [exact Hname | |].
  - intros m k Hm Hk.
    pose proof (proj1 (Forall_forall _ _) Hroster m Hm) as Hin.
    pose proof (proj1 (Forall_forall _ _) Hin k Hk) as Hk'.
    apply list_elem_of_fmap in Hk' as (p & -> & Hp).
    exists p. split_and!; [done | done |]. by apply Hname.
  - intros k Hk. unfold getPlayerName. rewrite Hs.
    case_decide; [| done].
    rewrite lookup_ge_None_2; [done |]. lia.
Qed.

Lemma groupedMatchesOf_lookup (s : Session) (idx : nat) :
  (idx < 7)%nat → groupedMatchesOf s !! idx = Some (roundDisplay s idx).
Proof.
  intros Hidx. unfold groupedMatchesOf, TOTAL_ROUNDS.
  rewrite list_lookup_fmap, lookup_seq_lt by done. done.
Qed.

Lemma schedule_display_perm (s : Session) :
  schedule_kept s → concat (groupedMatchesOf s) ≡ₚ Some <$> matches s.
Proof.
  intros Hk.
  assert (Hlen : length (matches s) = 14%nat).
  { rewrite <- (length_fmap (set_scoreA None)), Hk. reflexivity. }
  assert (Hr : ∀ idx, (idx < 7)%nat →
            roundDisplay s idx ≡ₚ Some <$> take 2 (drop (2 * idx) (matches s))).
  { intros idx Hidx.
    destruct (schedule_roundDisplay s idx Hk Hidx)
      as (m1 & m2 & H1 & H2 & _ & _ & _ & _ & ->).
    assert (Ht : take 2 (drop (2 * idx) (matches s)) = [m1; m2]).
    { apply list_eq. intros [| [| j]]; simpl.
      - rewrite lookup_take_lt, lookup_drop by lia.
        by rewrite Nat.add_0_r.
      - rewrite lookup_take_lt, lookup_drop by lia. done.
      - by rewrite lookup_take_ge by lia. }
    rewrite Ht. destruct (truthy _ _); [apply Permutation_swap | done]. }
  unfold groupedMatchesOf, TOTAL_ROUNDS. cbn [seq fmap list_fmap concat].
  rewrite !Hr by lia. rewrite app_nil_r, <- !fmap_app. f_equiv.
  clear Hr Hk. revert Hlen. generalize (matches s). intros ms Hlen.
  do 15 (destruct ms as [| ? ms]; try discriminate Hlen). reflexivity.
Qed.

(** X11.  In every state reached from a first visit with a session, the
    display has 7 rounds; round [idx + 1] shows the two matches of that round,
    the court-1 match first and the court-2 match second, or the other way
    round when the round is swapped; over all rounds every match of the
    session is shown exactly once. *)
Theorem reachable_groupedMatches (es : list Event) (s : Session) :
  let st := visit es in
  session st = Some s →
  length (groupedMatches st) = 7%nat ∧
  (∀ idx : nat, (idx < 7)%nat →
     ∃ m1 m2 : Match,
       matches s !! (2 * idx)%nat = Some m1 ∧
       matches s !! (2 * idx + 1)%nat = Some m2 ∧
       round m1 = Z.of_nat idx + 1 ∧ round m2 = Z.of_nat idx + 1 ∧
       court m1 = 1 ∧ court m2 = 2 ∧
       groupedMatches st !! idx =
         Some (if truthy (courtSwapByRound s) (Z.of_nat idx + 1)
               then [Some m2; Some m1] else [Some m1; Some m2])) ∧
  concat (groupedMatches st) ≡ₚ Some <$> matches s.
Proof.
  pose proof (reachable_ok trim toLowerCase defaultSessionName es) as Hok.
  simpl. intros Hs. destruct Hok as (_ & _ & Hshape).
  destruct (Hshape s Hs) as (Hk & _ & _).
  unfold groupedMatches. rewrite Hs. split_and!.
  - unfold groupedMatchesOf. by rewrite length_fmap, length_seq.
  - intros idx Hidx.
    destruct (schedule_roundDisplay s idx Hk Hidx)
      as (m1 & m2 & H1 & H2 & ? & ? & ? & ? & Hd).
    exists m1, m2. split_and!; try done.
    by rewrite groupedMatchesOf_lookup, Hd.
  - by apply schedule_display_perm.
Qed.

Lemma roundLines_shown (st : AppState) (n : nat) (shown : list (Match * Match)) :
  mapM id (imap (λ i, roundLines st (n + i))
                ((λ d, [Some d.1; Some d.2]) <$> shown))
  = Some (imap (λ i d, [ "Round " +:+ pretty (Z.of_nat (n + i) + 1);
                         matchLine st 0 d.1; matchLine st 1 d.2 ])
               shown).
Proof.
  revert n. induction shown as [| d shown IH]; intros n; [done |].
  csimpl.
  rewrite (imap_ext _ (λ i, roundLines st (S n + i)))
    by (intros i x _; simpl; f_equal; lia).
  rewrite IH. simpl. do 2 f_equal.
  apply imap_ext. intros i x _. simpl. do 3 f_equal. lia.
Qed.

Lemma schedule_shown (s : Session) :
  schedule_kept s →
  ∃ shown : list (Match * Match),
    length shown = 7%nat ∧
    groupedMatchesOf s = (λ d, [Some d.1; Some d.2]) <$> shown.
Proof.
  intros Hk.
  assert (Hd : ∀ idx, (idx < 7)%nat →
            ∃ d, roundDisplay s idx = [Some d.1; Some d.2]).
  { intros idx Hidx.
    destruct (schedule_roundDisplay s idx Hk Hidx)
      as (m1 & m2 & _ & _ & _ & _ & _ & _ & ->).
    destruct (truthy _ _); [by exists (m2, m1) | by exists (m1, m2)]. }
  destruct (Hd 0%nat ltac:(lia)) as [d0 H0].
  destruct (Hd 1%nat ltac:(lia)) as [d1 H1].
  destruct (Hd 2%nat ltac:(lia)) as [d2 H2].
  destruct (Hd 3%nat ltac:(lia)) as [d3 H3].
  destruct (Hd 4%nat ltac:(lia)) as [d4 H4].
  destruct (Hd 5%nat ltac:(lia)) as [d5 H5].
  destruct (Hd 6%nat ltac:(lia)) as [d6 H6].
  exists [d0; d1; d2; d3; d4; d5; d6]. split; [done |].
  unfold groupedMatchesOf, TOTAL_ROUNDS. cbn [seq fmap list_fmap].
  by rewrite H0, H1, H2, H3, H4, H5, H6.
Qed.

(** X12.  In every state reached from a first visit with a session,
    [buildSummary] does not throw and joins 34 lines with line feeds: the
    session name, an empty line, "Standings:", the 8 standings rows in
    standings order, an empty line, "Matches:", and for each round 1..7 a
    "Round" header followed by the two matches of the round as they are
    displayed, labelled Court 1 and Court 2 by display position. *)
Theorem reachable_buildSummary (es : list Event) (s : Session) :
  let st := visit es in
  session st = Some s →
  ∃ lines : list string,
    summaryLines localeCompare st s = Some lines ∧
    buildSummary localeCompare st = Some (String.concat newline lines) ∧
    length lines = 34%nat ∧
    take 3 lines = [s_name s; ""; "Standings:"] ∧
    take 8 (drop 3 lines) = imap standingLine (standings localeCompare st) ∧
    take 2 (drop 11 lines) = [""; "Matches:"] ∧
    ∀ idx : nat, (idx < 7)%nat →
      ∃ d1 d2 : Match,
        groupedMatches st !! idx = Some [Some d1; Some d2] ∧
        take 3 (drop (13 + 3 * idx) lines)
        = [ "Round " +:+ pretty (Z.of_nat idx + 1);
            matchLine st 0 d1; matchLine st 1 d2 ].
Proof.
  pose proof (reachable_ok trim toLowerCase defaultSessionName es) as Hok.
  simpl. intros Hs. destruct Hok as ((_ & _ & Hsess) & _ & Hshape).
  destruct (Hshape s Hs) as (Hk & _ & _).
  destruct (Hsess s Hs) as (_ & Hplayers & _).
  destruct (schedule_shown s Hk) as (shown & Hlen & Hshown).
  set (st := visit es) in *.
  assert (Hrows : length (imap standingLine (standings localeCompare st)) = 8%nat).
  { rewrite length_imap. unfold standings. rewrite Hs. unfold standingsOf.
    rewrite sort_length. unfold unsortedStandings. by rewrite length_fmap. }
  assert (Hlines : summaryLines localeCompare st s =
            Some ([s_name s; ""; "Standings:"]
                    ++ imap standingLine (standings localeCompare st)
                    ++ [""; "Matches:"]
                    ++ concat (imap (λ i d, [ "Round " +:+ pretty (Z.of_nat i + 1);
                                              matchLine st 0 d.1; matchLine st 1 d.2 ])
                                    shown))).
  { unfold summaryLines. rewrite Hshown.
    assert (Hm : mapM id (imap (roundLines st)
                            ((λ d, [Some d.1; Some d.2]) <$> shown))
                 = Some (imap (λ i d, [ "Round " +:+ pretty (Z.of_nat i + 1);
                                        matchLine st 0 d.1; matchLine st 1 d.2 ])
                              shown))
      by apply (roundLines_shown st 0 shown).
    rewrite Hm. reflexivity. }
  eexists. split; [exact Hlines |].
  split; [unfold buildSummary; by rewrite Hs, Hlines |].
  unfold groupedMatches. rewrite Hs, Hshown.
  remember (imap standingLine (standings localeCompare st)) as rows eqn:Erows.
  clear Erows Hlines Hshown.
  do 9 (destruct rows as [| ? rows]; try discriminate Hrows).
  do 8 (destruct shown as [| [? ?] shown]; try discriminate Hlen).
  split_and!; try reflexivity.
  intros idx Hidx.
  do 7 (destruct idx as [| idx]; [by eexists _, _ |]). lia.
Qed.

End Visits.

Lemma demoReached_session : session demoReached = Some demoReachedSession.
Proof. vm_compute. reflexivity. Qed.

Lemma reachable_app_ok_witness :
  set_scoreA None <$> matches demoReachedSession = generateMatches ∧
  p_id <$> s_players demoReachedSession = [0; 1; 2; 3; 4; 5; 6; 7].
Proof.
  destruct (reachable_app_ok ascii_trim ascii_lower "Americano" demoEvents)
    as (_ & _ & _ & H).
  destruct (H demoReachedSession demoReached_session) as (_ & Hi & _ & _ & Hk & _).
  split; [exact Hk | exact Hi].
Defined.

Lemma reachable_updateScore_one_match_witness :
  let m := mkMatch "r2c2" 2 2 (mkTeam "r2t3" (1, 4)) (mkTeam "r2t4" (2, 3)) None in
  session (updateScore "r2c2" 50 demoReached) =
    Some (set_matches
            (<[3%nat := set_scoreA (Some (clamp (tp_val (totalPoints demoReached)) 50)) m]>
               (matches demoReachedSession))
            demoReachedSession).
Proof.
  intros m.
  assert (Hm : matches demoReachedSession !! 3%nat = Some m)
    by (vm_compute; reflexivity).
  destruct (reachable_updateScore_one_match ascii_trim ascii_lower "Americano"
              demoEvents demoReachedSession 3 m 50 demoReached_session Hm)
    as [_ H].
  exact H.
Defined.

Lemma reachable_getPlayerName_witness :
  getPlayerName 7 demoReached = "P8" ∧ getPlayerName 8 demoReached = "".
Proof.
  destruct (reachable_getPlayerName ascii_trim ascii_lower "Americano"
              demoEvents demoReachedSession demoReached_session) as (Hp & _ & Hout).
  split.
  - apply (Hp (mkPlayer 7 "P8")). do 7 right. left.
  - apply Hout. lia.
Defined.

Lemma reachable_groupedMatches_witness :
  ∃ m1 m2 : Match,
    court m1 = 1 ∧ court m2 = 2 ∧
    groupedMatches demoReached !! 0%nat = Some [Some m2; Some m1].
Proof.
  destruct (reachable_groupedMatches ascii_trim ascii_lower "Americano"
              demoEvents demoReachedSession demoReached_session) as (_ & H & _).
  destruct (H 0%nat ltac:(lia)) as (m1 & m2 & _ & _ & _ & _ & H1 & H2 & Hd).
  exists m1, m2. split_and!; [exact H1 | exact H2 | exact Hd].
Defined.

Lemma reachable_buildSummary_witness :
  ∃ lines : list string,
    buildSummary code_unit_compare demoReached = Some (String.concat newline lines) ∧
    length lines = 34%nat ∧
    take 3 lines = ["Cup"; ""; "Standings:"].
Proof.
  destruct (reachable_buildSummary ascii_trim ascii_lower code_unit_compare
              "Americano" demoEvents demoReachedSession demoReached_session)
    as (lines & _ & Hb & Hl & Hh & _).
  exists lines. split_and!; [exact Hb | exact Hl | exact Hh].
Defined.

(** * How the commands compose *)

Lemma fmap_fmap_ext {A} (f g h : A → A) (l : list A) :
  (∀ x, f (g x) = h x) → f <$> (g <$> l) = h <$> l.
Proof.
  intros H. rewrite <- list_fmap_compose. apply list_fmap_ext.
  intros _ x _. apply H.
Qed.

(** X7.  The last score entered for a match is the one that stays: entering
    [v] and then [v'] for the same id gives the state that entering [v']
    alone gives.  Score entries for two different ids can be made in either
    order. *)
Theorem updateScore_last_write_wins
    (st : AppState) (matchId matchId' : string) (v v' : Z) :
  updateScore matchId v' (updateScore matchId v st) = updateScore matchId v' st ∧
  (matchId ≠ matchId' →
   updateScore matchId v (updateScore matchId' v' st)
   = updateScore matchId' v' (updateScore matchId v st)).
Proof.
  unfold updateScore. destruct (session st) as [s |] eqn:Hs; simpl;
    [| by rewrite !Hs].
  split.
  - unfold persistSession, set_matches. simpl.
    rewrite (fmap_fmap_ext _ _
               (λ m, if decide (m_id m = matchId)
                     then set_scoreA (Some (clamp (tp_val (totalPoints st)) v')) m
                     else m)); [done |].
    intros m. by repeat (case_decide; simpl in * ).
  - intros Hne. unfold persistSession, set_matches. simpl.
    assert (Heq : ∀ c c' : Z,
      (λ m, if decide (m_id m = matchId) then set_scoreA (Some c) m else m)
        <$> ((λ m, if decide (m_id m = matchId') then set_scoreA (Some c') m else m)
               <$> matches s)
      = (λ m, if decide (m_id m = matchId') then set_scoreA (Some c') m else m)
          <$> ((λ m, if decide (m_id m = matchId) then set_scoreA (Some c) m else m)
                 <$> matches s)).
    { intros c c'. rewrite <- !list_fmap_compose. apply list_fmap_ext.
      intros _ m _. simpl.
      repeat (case_decide; simpl in * ); congruence. }
    by rewrite Heq.
Qed.

Lemma updateScore_last_write_wins_witness :
  updateScore "r1c1" 3 (updateScore "r2c1" 5 demoCreated)
  = updateScore "r2c1" 5 (updateScore "r1c1" 3 demoCreated).
Proof.
  destruct (updateScore_last_write_wins demoCreated "r1c1" "r2c1" 3 5) as [_ H].
  apply H. discriminate.
Defined.

Lemma clamp_clamp (hi hi' x : Z) :
  0 ≤ hi → 0 ≤ hi' → clamp hi' (clamp hi x) = clamp (Z.min hi hi') x.
Proof. unfold clamp. lia. Qed.

Lemma reclamp_reclamp (a b c : TotalPoints) (m : Match) :
  Z.min (tp_val a) (tp_val b) = tp_val c →
  reclamp b (reclamp a m) = reclamp c m.
Proof.
  intros Hmin. unfold reclamp. destruct (scoreA m) as [x |] eqn:Hx; simpl.
  - pose proof (tp_val_pos a). pose proof (tp_val_pos b).
    rewrite clamp_clamp by lia. by rewrite Hmin.
  - by rewrite Hx.
Qed.

(** X8.  Changing the scale twice to the same value is the same as changing
    it once.  Lowering the scale to 24 and raising it back to 32 leaves the
    session as lowering alone does: the scores cut to 24 stay cut.  Raising
    the scale to 32 in a state whose scores are within the current scale
    changes no match. *)
Theorem updateTotalPoints_composes (st : AppState) (tp : TotalPoints) :
  updateTotalPoints tp (updateTotalPoints tp st) = updateTotalPoints tp st ∧
  session (updateTotalPoints TP32 (updateTotalPoints TP24 st))
    = session (updateTotalPoints TP24 st) ∧
  session (updateTotalPoints TP24 (updateTotalPoints TP32 st))
    = session (updateTotalPoints TP24 st) ∧
  (scores_in_range st → session (updateTotalPoints TP32 st) = session st).
Proof.
  unfold updateTotalPoints. simpl.
  destruct (session st) as [s |] eqn:Hs; simpl; [| by rewrite ?Hs].
  unfold persistSession, set_matches. simpl.
  split_and!.
  - rewrite (fmap_fmap_ext _ _ (reclamp tp)); [done |].
    intros m. apply reclamp_reclamp. lia.
  - rewrite (fmap_fmap_ext _ _ (reclamp TP24)); [done |].
    intros m. by apply reclamp_reclamp.
  - rewrite (fmap_fmap_ext _ _ (reclamp TP24)); [done |].
    intros m. by apply reclamp_reclamp.
  - intros Hrange. specialize (Hrange s Hs).
    rewrite fmap_unchanged; [by destruct s |].
    intros m Hm. pose proof (proj1 (Forall_forall _ _) Hrange m Hm) as Ha.
    unfold reclamp. destruct (scoreA m) as [a |] eqn:Hsc; [| done].
    specialize (Ha a Hsc).
    assert (Hc : clamp (tp_val TP32) a = a).
    { unfold clamp. destruct (totalPoints st); simpl in *; lia. }
    rewrite Hc, <- Hsc. apply set_scoreA_same.
Qed.

Lemma updateTotalPoints_composes_witness :
  session (updateTotalPoints TP32 demoScored30) = session demoScored30 ∧
  session (updateTotalPoints TP32 (updateTotalPoints TP24 demoScored30))
    = session (updateTotalPoints TP24 demoScored30).
Proof.
  destruct (updateTotalPoints_composes demoScored30 TP32) as (_ & H2 & _ & H4).
  split; [apply H4, demoScored30_in_range | exact H2].
Defined.

(** In the witness state the score of 30 is cut to 24 by the lower scale,
    so the second equation is between sessions that differ from the one
    before the two changes. *)
Example demoScored30_cut :
  (scoreA <$> (session (updateTotalPoints TP24 demoScored30)
                 ≫= λ s, matches s !! 0%nat)) = Some (Some 24) ∧
  (scoreA <$> (session demoScored30 ≫= λ s, matches s !! 0%nat)) = Some (Some 30).
Proof. split; vm_compute; reflexivity. Qed.

(** X14.  After a reset there is no session, storage has no session, the
    scale and its stored text are kept and the form is empty, so that
    pressing create right away is rejected for incomplete names ([trim]
    maps the empty string to itself). *)
Theorem reset_then_create_rejected
    (trim toLowerCase : string → string) (defaultSessionName : string)
    (st : AppState) :
  trim "" = "" →
  let st1 := resetSession defaultSessionName st in
  session st1 = None ∧ storedSession st1 = None ∧
  totalPoints st1 = totalPoints st ∧
  storedTotalPoints st1 = storedTotalPoints st ∧
  playerInputs st1 = replicate 8 "" ∧
  sessionNameInput st1 = defaultSessionName ∧
  createSession trim toLowerCase defaultSessionName st1
    = set_message "Please enter exactly 8 player names." st1.
Proof.
  intros Htrim. simpl. split_and!; try done.
  unfold createSession. simpl. rewrite Htrim. reflexivity.
Qed.

Lemma reset_then_create_rejected_witness :
  message (createSession ascii_trim ascii_lower "Americano"
             (resetSession "Americano" demoReached))
  = "Please enter exactly 8 player names.".
Proof.
  destruct (reset_then_create_rejected ascii_trim ascii_lower "Americano"
              demoReached eq_refl) as (_ & _ & _ & _ & _ & _ & H).
  by rewrite H.
Defined.

(** * The date label *)

Lemma Z_range_elem (lo hi x : Z) :
  lo ≤ x ≤ hi →
  x ∈ (λ i : nat, lo + Z.of_nat i) <$> seq 0 (Z.to_nat (hi - lo + 1)).
Proof.
  intros Hx. apply list_elem_of_fmap. exists (Z.to_nat (x - lo)).
  split; [lia |]. apply elem_of_seq. lia.
Qed.

Lemma Z_range_Forall (P : Z → Prop) `{∀ x, Decision (P x)} (lo hi : Z) :
  bool_decide (Forall P ((λ i : nat, lo + Z.of_nat i)
                           <$> seq 0 (Z.to_nat (hi - lo + 1)))) = true →
  ∀ x, lo ≤ x ≤ hi → P x.
Proof.
  intros Hb x Hx. apply bool_decide_eq_true in Hb.
  by apply (proj1 (Forall_forall _ _) Hb), Z_range_elem.
Qed.

Lemma padded_two (n : Z) :
  1 ≤ n ≤ 31 →
  String.length (padStart 2 (pretty n)) = 2%nat ∧
  (n < 10 → String.substring 0 1 (padStart 2 (pretty n)) = "0").
Proof.
  revert n. apply (Z_range_Forall _ 1 31). vm_compute. reflexivity.
Qed.

Lemma year_four (y : Z) : 1000 ≤ y ≤ 9999 → String.length (pretty y) = 4%nat.
Proof.
  revert y. apply (Z_range_Forall _ 1000 9999). vm_compute. reflexivity.
Qed.

(** X13.  For a day of the month 1..31, a month index 0..11 and a year of
    four digits the date label is "dd.mm.yyyy": ten characters with dots at
    positions 2 and 5, and a leading zero for a day or a month below 10.
    The default session name is "Americano " followed by it. *)
Theorem dateLabel_format (date month fullYear : Z) :
  1 ≤ date ≤ 31 → 0 ≤ month ≤ 11 → 1000 ≤ fullYear ≤ 9999 →
  let label := dateLabel date month fullYear in
  String.length label = 10%nat ∧
  String.substring 2 1 label = "." ∧
  String.substring 5 1 label = "." ∧
  (date < 10 → String.substring 0 1 label = "0") ∧
  (month < 9 → String.substring 3 1 label = "0") ∧
  String.length (defaultSessionNameAt date month fullYear) = 20%nat.
Proof.
  intros Hd Hm Hy.
  destruct (padded_two date Hd) as [Hdl Hd0].
  destruct (padded_two (month + 1) ltac:(lia)) as [Hml Hm0].
  pose proof (year_four fullYear Hy) as Hyl.
  unfold defaultSessionNameAt, dateLabel. cbv zeta.
  remember (pretty fullYear) as yyyy eqn:Eyyyy. clear Eyyyy.
  destruct (padStart 2 (pretty date)) as [| c1 [| c2 [| ? ?]]];
    try discriminate Hdl.
  destruct (padStart 2 (pretty (month + 1))) as [| c3 [| c4 [| ? ?]]];
    try discriminate Hml.
  simpl in *. change ("" +:+ yyyy) with yyyy. rewrite Hyl.
  split_and!; try done.
  - by destruct yyyy.
  - intros Hlt. apply Hm0. lia.
Qed.

Lemma dateLabel_format_witness :
  String.length (dateLabel 3 10 2026) = 10%nat ∧
  String.substring 0 1 (dateLabel 3 10 2026) = "0".
Proof.
  destruct (dateLabel_format 3 10 2026 ltac:(lia) ltac:(lia) ltac:(lia))
    as (Hl & _ & _ & H0 & _).
  split; [exact Hl | apply H0; lia].
Defined.

(** X15.  Swapping the courts of a round and touching the scores do not
    interfere: a court swap and a score entry, or a court swap and a scale
    change, give the same state in either order, and so do the swaps of two
    different rounds. *)
Theorem toggleCourtSwap_commutes
    (st : AppState) (r r' : Z) (matchId : string) (v : Z) (tp : TotalPoints) :
  toggleCourtSwap r (updateScore matchId v st)
    = updateScore matchId v (toggleCourtSwap r st) ∧
  toggleCourtSwap r (updateTotalPoints tp st)
    = updateTotalPoints tp (toggleCourtSwap r st) ∧
  (r ≠ r' →
   toggleCourtSwap r (toggleCourtSwap r' st)
   = toggleCourtSwap r' (toggleCourtSwap r st)).
Proof.
  unfold toggleCourtSwap, updateScore, updateTotalPoints. simpl.
  destruct (session st) as [s |] eqn:Hs; simpl; [| by rewrite ?Hs].
  split_and!; [reflexivity | reflexivity |].
  intros Hne. unfold persistSession. simpl.
  rewrite !truthy_insert, !decide_False by done.
  by rewrite (insert_insert_ne (courtSwapByRound s) r r') by done.
Qed.

Lemma toggleCourtSwap_commutes_witness :
  toggleCourtSwap 2 (toggleCourtSwap 5 demoCreated)
  = toggleCourtSwap 5 (toggleCourtSwap 2 demoCreated).
Proof.
  destruct (toggleCourtSwap_commutes demoCreated 2 5 "r1c1" 0 TP32) as (_ & _ & H).
  apply H. lia.
Defined.
